(** * Settings dashboard: update channel and self-check status

    A shallow embedding of the two stateful view components of the
    settings dashboard,

    - [component/UpdateChannel.tsx]: the update-channel selector, its
      URL <-> channel mapping and the save action;
    - [component/SelfCheck.tsx]: the self-check status card, its fetch and
      run actions, its polling effect and its rendering;

    followed by the properties the specification states about them.

    Conventions of the embedding.

    - A JavaScript string is the list of its UTF-16 code units.
    - An [async] function is a tree of effects ([Api.Prog]): state-setter
      calls, notifications and awaited requests, with [try]/[catch]/[finally]
      as combinators.  A handler is a function of the state its closure
      captured at render time.
    - [apiRequest] (module [@/core/authApi]) is outside the repository; the
      backend is a parameter ([Api.Server]) that answers every request with
      a resolved value or a rejection. *)

From Stdlib Require Import ZArith NArith List String Ascii Bool Lia.
From Stdlib Require Import Floats.SpecFloat.
Import ListNotations.

Set Implicit Arguments.

(* ================================================================== *)
(** * JavaScript values used by the components *)
(* ================================================================== *)

Module Js.

(** A string: its UTF-16 code units. *)
Definition jsstring : Type := list N.

(** An ASCII literal of the source. *)
Definition lit (s : string) : jsstring :=
  map N_of_ascii (list_ascii_of_string s).

(** [a === b] on strings. *)
Fixpoint str_eqb (a b : jsstring) : bool :=
  match a, b with
  | [], [] => true
  | x :: a', y :: b' => N.eqb x y && str_eqb a' b'
  | _, _ => false
  end.

(** ToBoolean on a string: the empty string is the only falsy one. *)
Definition truthy (s : jsstring) : bool :=
  match s with
  | [] => false
  | _ :: _ => true
  end.

(** ToBoolean on [string | null | undefined]. *)
Definition truthy_opt (o : option jsstring) : bool :=
  match o with
  | Some s => truthy s
  | None => false
  end.

(** [o === s] for [o : string | null]. *)
Definition opt_eqb (o : option jsstring) (s : jsstring) : bool :=
  match o with
  | Some u => str_eqb u s
  | None => false
  end.

(** [o || d] for [o : string | undefined]. *)
Definition or_default (o : option jsstring) (d : jsstring) : jsstring :=
  match o with
  | Some (c :: r) => c :: r
  | _ => d
  end.

(** WhiteSpace and LineTerminator code points of ECMAScript, the ones
    [String.prototype.trim] strips: TAB, LF, VT, FF, CR, SP, NBSP, the
    Unicode space separators (Zs), LS, PS and the byte-order mark. *)
Definition isWhiteSpace (c : N) : bool :=
  ((9 <=? c) && (c <=? 13) || (c =? 32) || (c =? 160) || (c =? 5760)
   || (8192 <=? c) && (c <=? 8202) || (c =? 8232) || (c =? 8233)
   || (c =? 8239) || (c =? 8287) || (c =? 12288) || (c =? 65279))%N.

Fixpoint trimStart (s : jsstring) : jsstring :=
  match s with
  | [] => []
  | c :: r => if isWhiteSpace c then trimStart r else s
  end.

Definition trimEnd (s : jsstring) : jsstring := rev (trimStart (rev s)).

(** [s.trim()] *)
Definition trim (s : jsstring) : jsstring := trimEnd (trimStart s).

(** [s.replace(p, r)] for a one-character pattern: the first occurrence
    only. *)
Fixpoint replace1 (p r : N) (s : jsstring) : jsstring :=
  match s with
  | [] => []
  | c :: t => if N.eqb c p then r :: t else c :: replace1 p r t
  end.

(** [s.toUpperCase()] on the ASCII letters; the status words it is applied
    to are ASCII. *)
Definition upper1 (c : N) : N :=
  if ((97 <=? c) && (c <=? 122))%N then (c - 32)%N else c.

Definition toUpperCase (s : jsstring) : jsstring := map upper1 s.

(** ** Numbers

    A JavaScript number is an IEEE 754 binary64 value.  The numbers the
    components compute with are millisecond counts; the embedding takes them
    as integers in the safe range, where the binary64 value is the integer
    itself, and computes the one inexact operation, the division by 1000,
    with the binary64 arithmetic of [SpecFloat].  Conversions to strings
    are given on that domain and answer [None] outside of it. *)

Local Open Scope Z_scope.

Definition prec : Z := 53.
Definition emax : Z := 1024.

Definition MAX_SAFE_INTEGER : Z := 2 ^ 53 - 1.

Definition isSafeInteger (z : Z) : bool := Z.abs z <=? MAX_SAFE_INTEGER.

(** The binary64 value of an integer. *)
Definition of_Z (z : Z) : spec_float := binary_normalize prec emax z 0 false.

(** [a / b] *)
Definition div (a b : spec_float) : spec_float := SFdiv prec emax a b.

(** The decimal numeral of a natural number: its digits, most significant
    first, as the code units of '0' to '9'.  The recursion is bounded by
    the binary size of the number. *)
Fixpoint digits_of (fuel : nat) (n : N) : jsstring :=
  match fuel with
  | O => [48 + n mod 10]%N
  | S fuel' =>
      if (n <? 10)%N then [48 + n]%N
      else digits_of fuel' (n / 10)%N ++ [48 + n mod 10]%N
  end.

Definition decimal (n : N) : jsstring := digits_of (N.to_nat (N.size n)) n.

(** Number::toString on a safe integer: its decimal numeral, with a minus
    sign when negative. *)
Definition Number_toString (z : Z) : option jsstring :=
  if isSafeInteger z then
    Some ((if z <? 0 then lit "-" else []) ++ decimal (Z.abs_N z))
  else None.

(** The integer [n] for which [n / 10^f - m * 2^e] is as close to zero as
    possible, the larger one when there are two. *)
Definition nearest_scaled (m : positive) (e : Z) (f : N) : Z :=
  let s := Z.pos m * 10 ^ Z.of_N f in
  if 0 <=? e then s * 2 ^ e
  else (2 * s + 2 ^ (- e)) / 2 ^ (- e + 1).

(** Steps 10.b-10.c of Number.prototype.toFixed: the numeral of [n] with a
    point before its last [f] digits, zero-padded on the left to [f + 1]
    digits. *)
Definition fixed_numeral (n : Z) (f : N) : jsstring :=
  let m := decimal (Z.to_N n) in
  let k := List.length m in
  let fd := N.to_nat f in
  let m' := repeat 48%N (fd + 1 - k)%nat ++ m in
  let k' := List.length m' in
  if N.eqb f 0 then m
  else firstn (k' - fd)%nat m' ++ lit "." ++ skipn (k' - fd)%nat m'.

(** Is [m * 2^e >= 10^21]? *)
Definition ge_1e21 (m : positive) (e : Z) : bool :=
  if 0 <=? e then 10 ^ 21 <=? Z.pos m * 2 ^ e
  else 10 ^ 21 * 2 ^ (- e) <=? Z.pos m.

(** [x.toFixed(f)].  A value that is not finite, or at least 10^21, is
    handed by the language to the general Number::toString, outside the
    domain of the embedding. *)
Definition toFixed (x : spec_float) (f : N) : option jsstring :=
  match x with
  | S754_zero _ => Some (fixed_numeral 0 f)
  | S754_finite s m e =>
      if ge_1e21 m e then None
      else Some ((if s then lit "-" else [])
                 ++ fixed_numeral (nearest_scaled m e f) f)
  | S754_infinity _ | S754_nan => None
  end.

End Js.

(* ================================================================== *)
(** * The self-check status types *)
(* ================================================================== *)

Module SelfCheckTypes.
Import Js.

(** Modelled from the spec: the declarations [SelfCheckStatus] and
    [SelfCheckResult] of [@/backend/server/SelfCheck/SelfCheckTypes], which
    the component imports and which are not among the sources.  The fields
    are the ones of the specification's StatusSnapshot; [scripts] is kept as
    the entry list [Object.entries] enumerates, in order. *)
Inductive OverallStatus : Type := Success | Failure | Partial | Never_run.

Record SelfCheckResult : Type :=
  { success : bool; message : jsstring; duration : option Z }.

Record SelfCheckStatus : Type :=
  { overallStatus : OverallStatus;
    isRunning : bool;
    lastRun : option jsstring;
    connectionError : option jsstring;
    scripts : list (jsstring * SelfCheckResult) }.

(** The string an [overallStatus] is on the wire and in the component. *)
Definition overallStatus_str (o : OverallStatus) : jsstring :=
  match o with
  | Success => lit "success"
  | Failure => lit "failure"
  | Partial => lit "partial"
  | Never_run => lit "never_run"
  end.

End SelfCheckTypes.

(* ================================================================== *)
(** * Requests, rejections and asynchronous programs *)
(* ================================================================== *)

Module Api.
Import Js.

(** What a [catch (err: any)] clause reads of the thrown value:
    [err.message], absent or a string. *)
Record Err : Type := { message : option jsstring }.

Inductive Outcome (T : Type) : Type :=
| Resolved (v : T)
| Rejected (e : Err).

Arguments Rejected {T} e.

Inductive Method : Type := GET | POST.

(** A request as it goes on the wire: path, method and, for the channel
    save, the [updateUrl] member of the JSON body. *)
Record Request : Type :=
  { req_path : jsstring; req_method : Method; req_updateUrl : option jsstring }.

(** The calls [apiRequest<T>(path, method, body)] of the two components,
    indexed by the type [T] of the resolved value.  The answers to the two
    POSTs are not looked at. *)
Inductive Endpoint : Type -> Type :=
| SelfCheckStatus_GET : Endpoint SelfCheckTypes.SelfCheckStatus
| SelfCheckRun_POST : Endpoint unit
| UpdateChannel_GET : Endpoint (option jsstring)
| UpdateChannel_POST (updateUrl : jsstring) : Endpoint unit.

Definition request_of {T} (ep : Endpoint T) : Request :=
  match ep with
  | SelfCheckStatus_GET =>
      {| req_path := lit "/api/admin/self-check-status"; req_method := GET;
         req_updateUrl := None |}
  | SelfCheckRun_POST =>
      {| req_path := lit "/api/admin/self-check-run"; req_method := POST;
         req_updateUrl := None |}
  | UpdateChannel_GET =>
      {| req_path := lit "/api/admin/update-channel"; req_method := GET;
         req_updateUrl := None |}
  | UpdateChannel_POST u =>
      {| req_path := lit "/api/admin/update-channel"; req_method := POST;
         req_updateUrl := Some u |}
  end.

(** The backend: its answer to a request, given the requests made before. *)
Definition Server : Type := forall T, list Request -> Endpoint T -> Outcome T.

(** An asynchronous function over state setters [U], returning [A]. *)
Inductive Prog (U A : Type) : Type :=
| Ret (a : A)
| Throw (e : Err)
| Set_ (u : U) (k : Prog U A)
| Notify (msg : jsstring) (k : Prog U A)
| Await (T : Type) (ep : Endpoint T) (k : Outcome T -> Prog U A).

Arguments Ret {U A} a.
Arguments Throw {U A} e.
Arguments Set_ {U A} u k.
Arguments Notify {U A} msg k.
Arguments Await {U A T} ep k.

Fixpoint bind {U A B} (p : Prog U A) (f : A -> Prog U B) : Prog U B :=
  match p with
  | Ret a => f a
  | Throw e => Throw e
  | Set_ u k => Set_ u (bind k f)
  | Notify m k => Notify m (bind k f)
  | Await ep k => Await ep (fun o => bind (k o) f)
  end.

(** [try { p } catch (err) { h err }] *)
Fixpoint try_catch {U A} (p : Prog U A) (h : Err -> Prog U A) : Prog U A :=
  match p with
  | Ret a => Ret a
  | Throw e => h e
  | Set_ u k => Set_ u (try_catch k h)
  | Notify m k => Notify m (try_catch k h)
  | Await ep k => Await ep (fun o => try_catch (k o) h)
  end.

(** [try { p } finally { q }]: [q] runs on both exits and the exit of [p]
    is kept, unless [q] itself throws. *)
Fixpoint try_finally {U A} (p : Prog U A) (q : Prog U unit) : Prog U A :=
  match p with
  | Ret a => bind q (fun _ => Ret a)
  | Throw e => bind q (fun _ => Throw e)
  | Set_ u k => Set_ u (try_finally k q)
  | Notify m k => Notify m (try_finally k q)
  | Await ep k => Await ep (fun o => try_finally (k o) q)
  end.

(** A setter call, a notification, [await apiRequest(...)]. *)
Definition set {U} (u : U) : Prog U unit := Set_ u (Ret tt).
Definition notify {U} (msg : jsstring) : Prog U unit := Notify msg (Ret tt).
Definition apiRequest {U T} (ep : Endpoint T) : Prog U T :=
  Await ep (fun o =>
    match o with
    | Resolved v => Ret v
    | Rejected e => Throw e
    end).

Declare Scope prog_scope.
Delimit Scope prog_scope with prog.
Notation "x <- p ;; q" := (bind p (fun x => q))
  (at level 100, p at next level, right associativity) : prog_scope.
Notation "p ;; q" := (bind p (fun _ => q))
  (at level 100, right associativity) : prog_scope.

(** What a run leaves behind, in order. *)
Inductive Event (U : Type) : Type :=
| EvSet (u : U)
| EvNotify (msg : jsstring)
| EvRequest (r : Request).

Arguments EvNotify {U} msg.
Arguments EvRequest {U} r.

Fixpoint requests {U} (tr : list (Event U)) : list Request :=
  match tr with
  | [] => []
  | EvRequest r :: t => r :: requests t
  | _ :: t => requests t
  end.

Section Run.
Variables (U S : Type).
Variable apply : U -> S -> S.
Variable srv : Server.

(** Runs a program to its end against the backend: the state after the
    setter calls in order, the trace so far extended, and the result. *)
Fixpoint run {A} (p : Prog U A) (s : S) (tr : list (Event U))
  : (Err + A) * S * list (Event U) :=
  match p with
  | Ret a => (inr a, s, tr)
  | Throw e => (inl e, s, tr)
  | Set_ u k => run k (apply u s) (tr ++ [EvSet u])
  | Notify m k => run k s (tr ++ [EvNotify m])
  | Await ep k =>
      run (k (srv (requests tr) ep)) s (tr ++ [EvRequest (request_of ep)])
  end.

End Run.

(** The parts of a finished run: result, final state, trace. *)
Definition result {U S A} (r : (Err + A) * S * list (Event U)) : Err + A :=
  fst (fst r).
Definition final {U S A} (r : (Err + A) * S * list (Event U)) : S :=
  snd (fst r).
Definition trace {U S A} (r : (Err + A) * S * list (Event U))
  : list (Event U) := snd r.

(** The busy discipline on a trace: the first event raises the flag, the
    last one lowers it, and nothing in between touches it. *)
Definition bracketed {U} (raises lowers touches : U -> bool)
  (tr : list (Event U)) : Prop :=
  exists (up down : U) (mid : list (Event U)),
    tr = EvSet up :: mid ++ [EvSet down]
    /\ raises up = true /\ lowers down = true
    /\ Forall (fun ev => match ev with
                         | EvSet u => touches u = false
                         | _ => True
                         end) mid.

Definition bracketedb {U} (raises lowers touches : U -> bool)
  (tr : list (Event U)) : bool :=
  match tr with
  | EvSet up :: rest =>
      raises up
      && match rev rest with
         | EvSet down :: dim =>
             lowers down
             && forallb (fun ev => match ev with
                                   | EvSet u => negb (touches u)
                                   | _ => true
                                   end) dim
         | _ => false
         end
  | _ => false
  end.

(** Example backends, to instantiate the statements below: one that stores
    the URL [u], accepts every POST and has no status to give; one that
    accepts a run and answers every status request with [r]. *)
Definition storing (u : option jsstring) : Server :=
  fun T _ ep =>
    match ep in Endpoint T return Outcome T with
    | SelfCheckStatus_GET => Rejected {| message := None |}
    | SelfCheckRun_POST => Resolved tt
    | UpdateChannel_GET => Resolved u
    | UpdateChannel_POST _ => Resolved tt
    end.

Definition reporting (r : SelfCheckTypes.SelfCheckStatus) : Server :=
  fun T _ ep =>
    match ep in Endpoint T return Outcome T with
    | SelfCheckStatus_GET => Resolved r
    | SelfCheckRun_POST => Resolved tt
    | UpdateChannel_GET => Resolved None
    | UpdateChannel_POST _ => Resolved tt
    end.

(** A backend that accepts a run and then fails to report. *)
Definition failing_status (e : Err) : Server :=
  fun T _ ep =>
    match ep in Endpoint T return Outcome T with
    | SelfCheckStatus_GET => Rejected e
    | SelfCheckRun_POST => Resolved tt
    | UpdateChannel_GET => Resolved None
    | UpdateChannel_POST _ => Resolved tt
    end.

(** A backend that rejects everything. *)
Definition unreachable (e : Err) : Server := fun T _ ep => Rejected e.

End Api.

(* ================================================================== *)
(** * component/UpdateChannel.tsx *)
(* ================================================================== *)

Module UpdateChannel.
Import Js Api.
Local Open Scope prog_scope.

(** [type UpdateChannelType = 'stable' | 'dev' | 'local' | 'custom'] *)
Inductive UpdateChannelType : Type := stable | dev | local | custom.

(** [interface UpdateChannelConfig { channel; customUrl? }]; the optional
    member is written [config_customUrl], the name [customUrl] being the
    component's own state variable. *)
Record UpdateChannelConfig : Type :=
  { channel : UpdateChannelType; config_customUrl : option jsstring }.

(** The four [useState] cells of the component. *)
Record State : Type :=
  { loading : bool;
    error : option jsstring;
    config : UpdateChannelConfig;
    customUrl : jsstring }.

(** The state at mount. *)
Definition initial : State :=
  {| loading := false;
     error := None;
     config := {| channel := stable; config_customUrl := Some [] |};
     customUrl := [] |}.

(** The setter calls of the component; the two functional updates of
    [config] are [setConfig_channel] and [setConfig_customUrl]. *)
Inductive Setter : Type :=
| setLoading (b : bool)
| setError (e : option jsstring)
| setConfig (c : UpdateChannelConfig)
| setConfig_channel (c : UpdateChannelType)
| setConfig_customUrl (u : jsstring)
| setCustomUrl (u : jsstring).

Definition apply (u : Setter) (s : State) : State :=
  match u with
  | setLoading b =>
      {| loading := b; error := error s; config := config s;
         customUrl := customUrl s |}
  | setError e =>
      {| loading := loading s; error := e; config := config s;
         customUrl := customUrl s |}
  | setConfig c =>
      {| loading := loading s; error := error s; config := c;
         customUrl := customUrl s |}
  | setConfig_channel c =>
      {| loading := loading s; error := error s;
         config := {| channel := c;
                      config_customUrl := config_customUrl (config s) |};
         customUrl := customUrl s |}
  | setConfig_customUrl u =>
      {| loading := loading s; error := error s;
         config := {| channel := channel (config s);
                      config_customUrl := Some u |};
         customUrl := customUrl s |}
  | setCustomUrl u =>
      {| loading := loading s; error := error s; config := config s;
         customUrl := u |}
  end.

(** The archive of the main branch, the URL of the [dev] channel. *)
Definition dev_url : jsstring :=
  lit "https://github.com/Yundera/template-root/archive/refs/heads/main.zip".

(** Fetches the stored URL and maps it to a channel. *)
Definition loadCurrentConfig : Prog Setter unit :=
  try_catch
    (updateUrl <- apiRequest UpdateChannel_GET;;
     if negb (truthy_opt updateUrl) || opt_eqb updateUrl (lit "") then
       set (setConfig {| channel := stable; config_customUrl := None |})
     else if opt_eqb updateUrl (lit "local") then
       set (setConfig {| channel := local; config_customUrl := None |})
     else if opt_eqb updateUrl dev_url then
       set (setConfig {| channel := dev; config_customUrl := None |})
     else
       match updateUrl with
       | Some u =>
           set (setConfig {| channel := custom; config_customUrl := Some u |});;
           set (setCustomUrl u)
       | None => Ret tt (* not reached: null is falsy *)
       end)
    (fun err =>
       set (setError
              (Some (or_default (message err)
                       (lit "Failed to load update channel configuration"))))).

Definition handleChannelChange (c : UpdateChannelType) : Prog Setter unit :=
  set (setConfig_channel c);;
  set (setError None).

Definition handleCustomUrlChange (url : jsstring) : Prog Setter unit :=
  set (setCustomUrl url);;
  set (setConfig_customUrl url).

(** Channel to URL, on the state of the render. *)
Definition getUpdateUrl (s : State) : jsstring :=
  match channel (config s) with
  | local => lit "local"
  | dev => dev_url
  | custom => customUrl s
  | stable => lit ""
  end.

Definition is_custom (c : UpdateChannelType) : bool :=
  match c with
  | custom => true
  | _ => false
  end.

Definition handleSaveChannel (s : State) : Prog Setter unit :=
  set (setLoading true);;
  set (setError None);;
  if is_custom (channel (config s)) && negb (truthy (trim (customUrl s))) then
    set (setError
           (Some (lit "Custom URL is required when using custom channel")));;
    set (setLoading false)
  else
    try_finally
      (try_catch
         (let updateUrl := getUpdateUrl s in
          apiRequest (UpdateChannel_POST updateUrl);;
          notify (lit "Update channel saved successfully. Running self-check...");;
          apiRequest SelfCheckRun_POST;;
          notify (lit "Self-check completed successfully"))
         (fun err =>
            set (setError
                   (Some (or_default (message err)
                            (lit "Failed to save update channel"))))))
      (set (setLoading false)).

(** The line under the selector: [getUpdateUrl() || 'Default (no value)']. *)
Definition currentUrlText (s : State) : jsstring :=
  or_default (Some (getUpdateUrl s)) (lit "Default (no value)").

(** A run of one of the component's functions from state [s]. *)
Definition exec (srv : Server) {A} (p : Prog Setter A) (s : State)
  : (Err + A) * State * list (Event Setter) :=
  run apply srv p s [].

(** The setter calls on the busy flag [loading]. *)
Definition raises (u : Setter) : bool :=
  match u with setLoading true => true | _ => false end.
Definition lowers (u : Setter) : bool :=
  match u with setLoading false => true | _ => false end.
Definition touches (u : Setter) : bool :=
  match u with setLoading _ => true | _ => false end.

End UpdateChannel.

(* ================================================================== *)
(** * The status colours of app/pages/softTheme.ts *)
(* ================================================================== *)

Module colors.
Import Js.

Definition statusSuccess : jsstring := lit "#66dd74".
Definition statusSuccessChip : jsstring := lit "#66dd74".
Definition statusWarning : jsstring := lit "#ffa726".
Definition statusError : jsstring := lit "#ff809e".
Definition statusErrorAlt : jsstring := lit "#f44336".
Definition statusInfo : jsstring := lit "#29b6f6".

End colors.

(* ================================================================== *)
(** * component/SelfCheck.tsx *)
(* ================================================================== *)

Module SelfCheck.
Import Js SelfCheckTypes Api.
Local Open Scope prog_scope.

(** The four [useState] cells of the component. *)
Record State : Type :=
  { loading : bool;
    checking : bool;
    error : option jsstring;
    status : option SelfCheckStatus }.

Definition initial : State :=
  {| loading := false; checking := false; error := None; status := None |}.

Inductive Setter : Type :=
| setLoading (b : bool)
| setChecking (b : bool)
| setError (e : option jsstring)
| setStatus (r : SelfCheckStatus).

Definition apply (u : Setter) (s : State) : State :=
  match u with
  | setLoading b =>
      {| loading := b; checking := checking s; error := error s;
         status := status s |}
  | setChecking b =>
      {| loading := loading s; checking := b; error := error s;
         status := status s |}
  | setError e =>
      {| loading := loading s; checking := checking s; error := e;
         status := status s |}
  | setStatus r =>
      {| loading := loading s; checking := checking s; error := error s;
         status := Some r |}
  end.

(** Fetches the latest self-check status. *)
Definition checkStatus : Prog Setter unit :=
  set (setChecking true);;
  set (setError None);;
  try_finally
    (try_catch
       (response <- apiRequest SelfCheckStatus_GET;;
        set (setStatus response))
       (fun err =>
          set (setError
                 (Some (or_default (Api.message err)
                          (lit "Failed to get self-check status"))))))
    (set (setChecking false)).

(** Triggers a run on the backend, then refreshes the status. *)
Definition handleRunSelfCheck : Prog Setter unit :=
  set (setLoading true);;
  set (setError None);;
  try_finally
    (try_catch
       (apiRequest SelfCheckRun_POST;;
        notify (lit "Self-check completed successfully");;
        checkStatus)
       (fun err =>
          set (setError
                 (Some (or_default (Api.message err)
                          (lit "Self-check failed"))))))
    (set (setLoading false)).

Definition getStatusHexColor (overallStatus : jsstring) : jsstring :=
  if str_eqb overallStatus (lit "success") then colors.statusSuccessChip
  else if str_eqb overallStatus (lit "failure") then colors.statusErrorAlt
  else if str_eqb overallStatus (lit "partial") then colors.statusWarning
  else if str_eqb overallStatus (lit "never_run") then colors.statusInfo
  else lit "#bdbdbd".

(** The two icons of a script row, with their colour. *)
Inductive Icon : Type :=
| CheckCircleIcon (color : jsstring)
| ErrorIcon (color : jsstring).

Definition getStatusIcon (success : bool) : Icon :=
  if success then CheckCircleIcon colors.statusSuccess
  else ErrorIcon colors.statusError.

(** [!duration] on [number | undefined], for the integral durations of the
    embedding: absent or zero. *)
Definition falsy_number (duration : option Z) : bool :=
  match duration with
  | None => true
  | Some d => Z.eqb d 0
  end.

Definition formatDuration (duration : option Z) : option jsstring :=
  match duration with
  | None => Some (lit "")
  | Some d =>
      if falsy_number duration then Some (lit "")
      else if Z.ltb d 1000 then
        option_map (fun n => n ++ lit "ms") (Number_toString d)
      else
        option_map (fun n => n ++ lit "s")
          (toFixed (div (of_Z d) (of_Z 1000)) 1)
  end.

(** ** The rendered card *)

(** The right-hand side of the status line: a spinner with its caption, or
    the Run Self-Check button. *)
Inductive ActionArea : Type :=
| Spinner (caption : jsstring)
| RunButton (disabled : bool).

(** What [{result.duration && <Chip .../>}] leaves in a row: nothing for an
    absent duration, the number itself for a falsy one (React prints a
    number child), the chip otherwise. *)
Inductive DurationSlot : Type :=
| NoDuration
| NumberText (d : Z)
| DurationChip (label : option jsstring).

Record Row : Type :=
  { row_icon : Icon;
    row_name : jsstring;
    row_message : jsstring;
    row_duration : DurationSlot }.

Record StatusChip : Type :=
  { chip_label : jsstring; chip_color : jsstring }.

(** The parts of the card that depend on the state. *)
Record View : Type :=
  { errorAlert : option jsstring;
    statusChip : option StatusChip;
    runningIndicator : bool;
    actionArea : ActionArea;
    lastRunLine : option jsstring;
    connectionErrorAlert : option jsstring;
    scriptRows : option (list Row) }.

(** [status?.isRunning], [undefined] being falsy. *)
Definition status_isRunning (st : option SelfCheckStatus) : bool :=
  match st with
  | Some r => isRunning r
  | None => false
  end.

Definition renderRow (entry : jsstring * SelfCheckResult) : Row :=
  let (scriptName, result) := entry in
  {| row_icon := getStatusIcon (success result);
     row_name := scriptName;
     row_message := SelfCheckTypes.message result;
     row_duration :=
       match duration result with
       | None => NoDuration
       | Some d =>
           if falsy_number (duration result) then NumberText d
           else DurationChip (formatDuration (duration result))
       end |}.

Definition render (s : State) : View :=
  {| errorAlert :=
       if truthy_opt (error s) then error s else None;
     statusChip :=
       match status s with
       | Some r =>
           let o := overallStatus_str (overallStatus r) in
           Some {| chip_label := toUpperCase (replace1 95 32 o);
                   chip_color := getStatusHexColor o |}
       | None => None
       end;
     runningIndicator := status_isRunning (status s);
     actionArea :=
       if loading s || checking s || status_isRunning (status s) then
         Spinner (if status_isRunning (status s) then lit "Running..."
                  else lit "Loading...")
       else RunButton (loading s || status_isRunning (status s));
     lastRunLine :=
       match status s with
       | Some r => if truthy_opt (lastRun r) then lastRun r else None
       | None => None
       end;
     connectionErrorAlert :=
       match status s with
       | Some r =>
           if truthy_opt (connectionError r) then connectionError r else None
       | None => None
       end;
     scriptRows :=
       match status s with
       | Some r =>
           if Nat.ltb 0 (List.length (scripts r)) then
             Some (map renderRow (scripts r))
           else None
       | None => None
       end |}.

(** A run of one of the component's functions from state [s]. *)
Definition exec (srv : Server) {A} (p : Prog Setter A) (s : State)
  : (Err + A) * State * list (Event Setter) :=
  run apply srv p s [].

(** The setter calls on the busy flag [loading]. *)
Definition raises (u : Setter) : bool :=
  match u with setLoading true => true | _ => false end.
Definition lowers (u : Setter) : bool :=
  match u with setLoading false => true | _ => false end.
Definition touches (u : Setter) : bool :=
  match u with setLoading _ => true | _ => false end.

End SelfCheck.

(* ================================================================== *)
(** * The mounted SelfCheck component: effect, interval and event loop *)
(* ================================================================== *)

(** The [useEffect] of the component,

<<
    useEffect(() => {
        checkStatus();
        const interval = setInterval(() => {
            if (status?.isRunning) { checkStatus(); }
        }, 2000);
        return () => clearInterval(interval);
    }, [status?.isRunning]);
>>

    run by a single-threaded event loop.  A task (the mount, the arrival of
    a response, a firing of the interval, a click) runs to completion; its
    setter calls are applied in order; the component then renders, and the
    effect runs again when its dependency [status?.isRunning] differs from
    the value it had at the previous run of the effect: the cleanup of the
    previous run first, then the body.  Time is counted in milliseconds
    since the mount. *)

Module Mounted.
Import Js SelfCheckTypes Api SelfCheck.

(** An [async] call suspended at an [await]: the request it waits for and
    what it does with the outcome. *)
Inductive Pending : Type :=
| Pend (T : Type) (ep : Endpoint T) (k : Outcome T -> Prog Setter unit).

Record Instance : Type :=
  { now : N;
    state : State;
    (** [status?.isRunning] at the last run of the effect *)
    deps : option bool;
    (** the live interval: its next firing and the [status] its callback
        closed over *)
    interval : option (N * option SelfCheckStatus);
    (** the calls waiting for a response, oldest first *)
    pending : list Pending;
    log : list (N * Event Setter);
    mounted : bool }.

Definition delay : N := 2000.

(** The dependency of the effect: [status?.isRunning], [None] standing for
    [undefined]. *)
Definition dep_of (s : State) : option bool := option_map isRunning (status s).

Definition dep_eqb (a b : option bool) : bool :=
  match a, b with
  | None, None => true
  | Some x, Some y => Bool.eqb x y
  | _, _ => false
  end.

Definition record (ev : Event Setter) (i : Instance) : Instance :=
  {| now := now i; state := state i; deps := deps i; interval := interval i;
     pending := pending i; log := log i ++ [(now i, ev)];
     mounted := mounted i |}.

Definition with_state (s : State) (i : Instance) : Instance :=
  {| now := now i; state := s; deps := deps i; interval := interval i;
     pending := pending i; log := log i; mounted := mounted i |}.

Definition with_pending (l : list Pending) (i : Instance) : Instance :=
  {| now := now i; state := state i; deps := deps i; interval := interval i;
     pending := l; log := log i; mounted := mounted i |}.

Definition with_now (t : N) (i : Instance) : Instance :=
  {| now := t; state := state i; deps := deps i; interval := interval i;
     pending := pending i; log := log i; mounted := mounted i |}.

(** Runs a call up to its next [await], or to its end. *)
Fixpoint resume (p : Prog Setter unit) (i : Instance) : Instance :=
  match p with
  | Ret _ => i
  | Throw _ => i
  | Set_ u k => resume k (with_state (apply u (state i)) (record (EvSet u) i))
  | Notify m k => resume k (record (EvNotify m) i)
  | Await ep k =>
      with_pending (pending i ++ [Pend ep k])
        (record (EvRequest (request_of ep)) i)
  end.

(** One run of the effect on the state of the render: the cleanup of the
    previous run ([clearInterval]), [checkStatus()], [setInterval]. *)
Definition run_effect (i : Instance) : Instance :=
  let captured := status (state i) in
  let i' := resume checkStatus i in
  {| now := now i'; state := state i'; deps := dep_of (state i);
     interval := Some ((now i + delay)%N, captured);
     pending := pending i'; log := log i'; mounted := mounted i' |}.

(** The render after a task: the effect runs again when its dependency
    changed. *)
Definition commit (i : Instance) : Instance :=
  if negb (mounted i) || dep_eqb (dep_of (state i)) (deps i) then i
  else run_effect i.

(** The first render and the first run of the effect. *)
Definition mount : Instance :=
  run_effect
    {| now := 0; state := initial; deps := None; interval := None;
       pending := []; log := []; mounted := true |}.

(** One firing of the interval: the callback, on the [status] it closed
    over, and the next firing. *)
Definition fire (t : N) (captured : option SelfCheckStatus) (i : Instance)
  : Instance :=
  let i0 := with_now t i in
  let i1 := if status_isRunning captured then resume checkStatus i0 else i0 in
  commit
    {| now := now i1; state := state i1; deps := deps i1;
       interval := Some ((t + delay)%N, captured);
       pending := pending i1; log := log i1; mounted := mounted i1 |}.

(** Time passes until [target]: the firings of the interval that fall due,
    in order. *)
Fixpoint elapse (fuel : nat) (target : N) (i : Instance) : Instance :=
  match interval i with
  | Some (t, captured) =>
      if (t <=? target)%N then
        match fuel with
        | O => with_now target i
        | S fuel' => elapse fuel' target (fire t captured i)
        end
      else with_now target i
  | None => with_now target i
  end.

Fixpoint remove_nth {A} (n : nat) (l : list A) : list A :=
  match n, l with
  | _, [] => []
  | O, _ :: t => t
  | S n', x :: t => x :: remove_nth n' t
  end.

Fixpoint logged_requests (l : list (N * Event Setter)) : list Request :=
  match l with
  | [] => []
  | (_, EvRequest r) :: t => r :: logged_requests t
  | _ :: t => logged_requests t
  end.

(** What happens to a mounted component. *)
Inductive Input : Type :=
| Elapse (d : N)       (** [d] milliseconds pass *)
| Deliver (n : nat)    (** the backend answers the [n]-th waiting request *)
| Click                (** the user presses Run Self-Check *)
| Unmount.

Section Loop.
Variable srv : Server.

Definition step (i : Instance) (inp : Input) : Instance :=
  match inp with
  | Elapse d =>
      elapse (S (N.to_nat (d / delay))) (now i + d)%N i
  | Deliver n =>
      match nth_error (pending i) n with
      | Some (Pend ep k) =>
          let o := srv (logged_requests (log i)) ep in
          commit (resume (k o) (with_pending (remove_nth n (pending i)) i))
      | None => i
      end
  | Click =>
      match actionArea (render (state i)) with
      | RunButton false =>
          if mounted i then commit (resume handleRunSelfCheck i) else i
      | _ => i
      end
  | Unmount =>
      {| now := now i; state := state i; deps := deps i; interval := None;
         pending := pending i; log := log i; mounted := false |}
  end.

Definition simulate (inputs : list Input) : Instance :=
  fold_left step inputs mount.

End Loop.

(** The instants at which the status was requested. *)
Fixpoint status_fetches (l : list (N * Event Setter)) : list N :=
  match l with
  | [] => []
  | (t, EvRequest r) :: rest =>
      if str_eqb (req_path r) (lit "/api/admin/self-check-status")
      then t :: status_fetches rest else status_fetches rest
  | _ :: rest => status_fetches rest
  end.

End Mounted.

(* ================================================================== *)
(** * The Status Presenter of the specification *)
(* ================================================================== *)

(** The display states of the specification (its section 4.4), in its
    words, to be compared with what [SelfCheck.render] shows:

    "no-data (absent snapshot, no error) -> error (error present) ->
     running (snapshot present, isRunning) -> settled-success /
     settled-failure / settled-partial / settled-never-run (snapshot
     present, not running, keyed off overallStatus)". *)

Module PresenterSpec.
Import Js SelfCheckTypes SelfCheck.

Inductive DisplayState : Type :=
| no_data
| error_shown
| running
| settled (o : OverallStatus).

Definition present (snapshot : option SelfCheckStatus) (busy : bool)
  (err : option jsstring) : DisplayState :=
  match err, snapshot with
  | Some _, _ => error_shown
  | None, None => no_data
  | None, Some r => if isRunning r then running else settled (overallStatus r)
  end.

(** The chip of an overall status: its word in capitals, the first
    underscore a space, in its colour. *)
Definition chip_of (o : OverallStatus) : StatusChip :=
  match o with
  | Success =>
      {| chip_label := lit "SUCCESS"; chip_color := colors.statusSuccessChip |}
  | Failure =>
      {| chip_label := lit "FAILURE"; chip_color := colors.statusErrorAlt |}
  | Partial =>
      {| chip_label := lit "PARTIAL"; chip_color := colors.statusWarning |}
  | Never_run =>
      {| chip_label := lit "NEVER RUN"; chip_color := colors.statusInfo |}
  end.

(** What it is for a rendered card to display a state: the error alert for
    error, the running indicator for running, the chip of the overall
    status for a settled state, none of the three for no-data. *)
Definition displays (v : View) (d : DisplayState) : Prop :=
  match d with
  | no_data =>
      errorAlert v = None /\ statusChip v = None /\ runningIndicator v = false
  | error_shown => errorAlert v <> None
  | running => runningIndicator v = true
  | settled o => statusChip v = Some (chip_of o)
  end.

(** A script row shows pass. *)
Definition passes (r : Row) : bool :=
  match row_icon r with
  | CheckCircleIcon _ => true
  | ErrorIcon _ => false
  end.

(** A script row carries a duration chip. *)
Definition has_chip (r : Row) : bool :=
  match row_duration r with
  | DurationChip _ => true
  | _ => false
  end.

(** The specification's reading of the card at a state: it displays the
    state [present] names and no other. *)
Definition exclusive_at (s : State) : Prop :=
  forall d : DisplayState,
    displays (render s) d
    <-> d = present (status s) (loading s || checking s) (error s).

(** The snapshot [r] with another overall status. *)
Definition with_overallStatus (o : OverallStatus) (r : SelfCheckStatus)
  : SelfCheckStatus :=
  {| overallStatus := o; isRunning := isRunning r; lastRun := lastRun r;
     connectionError := connectionError r; scripts := scripts r |}.

(** Example snapshots: nothing running, a run in progress, and a partial
    outcome all of whose scripts passed. *)
Definition idle_snapshot : SelfCheckStatus :=
  {| overallStatus := Success; isRunning := false; lastRun := None;
     connectionError := None; scripts := [] |}.

Definition running_snapshot : SelfCheckStatus :=
  {| overallStatus := Success; isRunning := true; lastRun := None;
     connectionError := None; scripts := [] |}.

Definition partial_all_passed : SelfCheckStatus :=
  {| overallStatus := Partial; isRunning := false;
     lastRun := Some (lit "2025-01-01T00:00:00.000Z");
     connectionError := None;
     scripts :=
       [ (lit "ensure-docker",
          {| success := true; message := lit "ok"; duration := Some 1250%Z |});
         (lit "ensure-user",
          {| success := true; message := lit "ok"; duration := Some 0%Z |}) ] |}.

(** The state after a poll failed while a run was in progress: the last
    snapshot is kept and the error is set. *)
Definition failed_poll_while_running : State :=
  {| loading := false; checking := false;
     error := Some (lit "Failed to get self-check status");
     status := Some running_snapshot |}.

End PresenterSpec.

(* ================================================================== *)
(** * The rendered update-channel card, and a backend that keeps the URL *)
(* ================================================================== *)

Module UpdateChannelView.
Import Js Api UpdateChannel.

(** Human-readable description for each channel option. *)
Definition getChannelDescription (c : UpdateChannelType) : jsstring :=
  match c with
  | stable => lit "Default stable channel (recommended)"
  | dev => lit "Development channel with latest features"
  | local => lit "Local development mode"
  | custom => lit "Custom repository URL"
  end.

(** The bottom right of the card: the progress line while [loading], the
    Save Channel button otherwise. *)
Inductive SaveArea : Type :=
| Saving (caption : jsstring)
| SaveButton (disabled : bool).

(** The text field of the custom URL: its value and its [disabled] flag. *)
Record CustomField : Type :=
  { field_value : jsstring; field_disabled : bool }.

(** The parts of the card that depend on the state. *)
Record View : Type :=
  { errorAlert : option jsstring;
    selectValue : UpdateChannelType;
    selectDisabled : bool;
    customField : option CustomField;
    currentUrl : jsstring;
    saveArea : SaveArea }.

Definition render (s : State) : View :=
  {| errorAlert := if truthy_opt (error s) then error s else None;
     selectValue := channel (config s);
     selectDisabled := loading s;
     customField :=
       if is_custom (channel (config s)) then
         Some {| field_value := customUrl s; field_disabled := loading s |}
       else None;
     currentUrl := or_default (Some (getUpdateUrl s)) (lit "Default (no value)");
     saveArea :=
       if loading s then Saving (lit "Saving and running self-check...")
       else SaveButton (loading s) |}.

(** The notifications of a trace, in order. *)
Fixpoint notifications {U} (tr : list (Event U)) : list jsstring :=
  match tr with
  | [] => []
  | EvNotify m :: t => m :: notifications t
  | _ :: t => notifications t
  end.

(** The URL a backend holds after the requests [hist], [init] being what
    it held before: the [updateUrl] of the last POST to
    /api/admin/update-channel. *)
Fixpoint stored_url (hist : list Request) (init : option jsstring)
  : option jsstring :=
  match hist with
  | [] => init
  | r :: t =>
      stored_url t
        (match req_method r with
         | POST =>
             if str_eqb (req_path r) (lit "/api/admin/update-channel")
             then req_updateUrl r else init
         | GET => init
         end)
  end.

(** An example backend that keeps the update URL: it accepts every POST and
    answers the GET of the channel with the URL last saved. *)
Definition persisting (init : option jsstring) : Server :=
  fun T hist ep =>
    match ep in Endpoint T return Outcome T with
    | SelfCheckStatus_GET => Rejected {| message := None |}
    | SelfCheckRun_POST => Resolved tt
    | UpdateChannel_GET => Resolved (stored_url hist init)
    | UpdateChannel_POST _ => Resolved tt
    end.

(** The three requests of the component. *)
Definition save_request (u : jsstring) : Request :=
  {| req_path := lit "/api/admin/update-channel"; req_method := POST;
     req_updateUrl := Some u |}.

Definition check_request : Request :=
  {| req_path := lit "/api/admin/self-check-run"; req_method := POST;
     req_updateUrl := None |}.

Definition load_request : Request :=
  {| req_path := lit "/api/admin/update-channel"; req_method := GET;
     req_updateUrl := None |}.

(** The validation of [handleSaveChannel] lets the state through. *)
Definition saveable (s : State) : bool :=
  negb (is_custom (channel (config s)) && negb (truthy (trim (customUrl s)))).

(** Saving, then loading again, as two calls on the same backend. *)
Definition save_then_load (srv : Server) (s : State)
  : (Err + unit) * State * list (Event Setter) :=
  let r := exec srv (handleSaveChannel s) s in
  run apply srv loadCurrentConfig (final r) (trace r).

End UpdateChannelView.

(* ================================================================== *)
(** * Vocabulary for the runs of the mounted component *)
(* ================================================================== *)

Module MountedSpec.
Import Js SelfCheckTypes Api SelfCheck Mounted.

(** The instants [t], [t + 2000], ... : [n] firings of an interval whose
    first firing is at [t]. *)
Fixpoint ticks (n : nat) (t : N) : list N :=
  match n with
  | O => []
  | S n' => t :: ticks n' (t + delay)%N
  end.

(** How many firings fall due up to [target], the next one being at [t]. *)
Definition due (t target : N) : nat :=
  if (t <=? target)%N then S (N.to_nat ((target - t) / delay)) else O.

(** The callback of the live interval, if any, does nothing: it closed
    over a status that reports no run. *)
Definition timer_idle (i : Instance) : Prop :=
  match interval i with
  | Some (_, captured) => status_isRunning captured = false
  | None => True
  end.

(** The effect has run on the current value of its dependency. *)
Definition in_sync (i : Instance) : Prop :=
  dep_eqb (dep_of (state i)) (deps i) = true.

(** An input other than the arrival of an answer. *)
Definition no_answer (inp : Input) : bool :=
  match inp with
  | Deliver _ => false
  | _ => true
  end.

(** The call a program is suspended in once its setter calls and
    notifications up to the first [await] are done. *)
Fixpoint awaiting (p : Prog Setter unit) : option Pending :=
  match p with
  | Ret _ => None
  | Throw _ => None
  | Set_ _ k => awaiting k
  | Notify _ k => awaiting k
  | Await ep k => Some (Pend ep k)
  end.

(** The three calls that can be waiting for an answer: a status fetch
    ([checkStatus], from the effect or the interval), a run at its POST,
    and a run at its follow-up fetch. *)
Definition at_fetch : option Pending := awaiting checkStatus.

Definition at_run_post : option Pending := awaiting handleRunSelfCheck.

Definition at_run_fetch : option Pending :=
  match at_run_post with
  | Some (Pend ep k) =>
      match ep in Endpoint T return (Outcome T -> Prog Setter unit) -> _ with
      | SelfCheckRun_POST => fun k => awaiting (k (Resolved tt))
      | _ => fun _ => None
      end k
  | None => None
  end.

(** The waiting calls agree with the busy flag: besides status fetches,
    one run is waiting when [loading] is raised and none when it is
    lowered. *)
Inductive waiting_ok : bool -> list Pending -> Prop :=
| waiting_nil : waiting_ok false []
| waiting_fetch b p l :
    at_fetch = Some p -> waiting_ok b l -> waiting_ok b (p :: l)
| waiting_run_post p l :
    at_run_post = Some p -> waiting_ok false l -> waiting_ok true (p :: l)
| waiting_run_fetch p l :
    at_run_fetch = Some p -> waiting_ok false l -> waiting_ok true (p :: l).

(** The waiting call is the POST of a run. *)
Definition is_run_post (p : Pending) : bool :=
  match p with
  | Pend ep _ =>
      match ep with
      | SelfCheckRun_POST => true
      | _ => false
      end
  end.

(** The invariant of the event loop on the busy flag. *)
Definition busy_consistent (i : Instance) : Prop :=
  waiting_ok (loading (state i)) (pending i).

(** The run of a mounted component through a list of inputs. *)
Definition run_from (srv : Server) (i : Instance) (inputs : list Input)
  : Instance := fold_left (step srv) inputs i.

End MountedSpec.

(* ================================================================== *)
(** * Asynchronous programs over any set of calls *)
(* ================================================================== *)

(** The same trees of effects as [Api.Prog], for the components that call
    other endpoints or reject with other values: [E] is the signature of
    the awaited calls, [X] what a rejection carries, [U] the calls made for
    their effect (state setters, notifications). *)

Module Async.

Section Programs.
Variable E : Type -> Type.
Variables X U : Type.

Inductive Outcome (T : Type) : Type :=
| Resolved (v : T)
| Rejected (x : X).

Inductive Prog (A : Type) : Type :=
| Ret (a : A)
| Throw (x : X)
| Do (u : U) (k : Prog A)
| Await (T : Type) (ep : E T) (k : Outcome T -> Prog A).

Fixpoint bind {A B} (p : Prog A) (f : A -> Prog B) : Prog B :=
  match p with
  | Ret a => f a
  | Throw _ x => Throw B x
  | Do u k => Do u (bind k f)
  | Await ep k => Await ep (fun o => bind (k o) f)
  end.

Fixpoint try_catch {A} (p : Prog A) (h : X -> Prog A) : Prog A :=
  match p with
  | Ret a => Ret a
  | Throw _ x => h x
  | Do u k => Do u (try_catch k h)
  | Await ep k => Await ep (fun o => try_catch (k o) h)
  end.

Fixpoint try_finally {A} (p : Prog A) (q : Prog unit) : Prog A :=
  match p with
  | Ret a => bind q (fun _ => Ret a)
  | Throw _ x => bind q (fun _ => Throw A x)
  | Do u k => Do u (try_finally k q)
  | Await ep k => Await ep (fun o => try_finally (k o) q)
  end.

Definition do (u : U) : Prog unit := Do u (Ret tt).

Definition await {T} (ep : E T) : Prog T :=
  Await ep (fun o =>
    match o with
    | Resolved v => Ret v
    | Rejected _ x => Throw T x
    end).

(** The effect calls and the number of awaited calls of a run. *)
Record Trace : Type := { did : list U; asked : nat }.

(** The collaborator: its answer to a call, given how many were made
    before. *)
Definition Server : Type := forall T, nat -> E T -> Outcome T.

Variable S : Type.
Variable apply : U -> S -> S.
Variable srv : Server.

Fixpoint run {A} (p : Prog A) (s : S) (tr : Trace) : (X + A) * S * Trace :=
  match p with
  | Ret a => (inr a, s, tr)
  | Throw _ x => (inl x, s, tr)
  | Do u k => run k (apply u s) {| did := did tr ++ [u]; asked := asked tr |}
  | Await ep k =>
      run (k (srv (asked tr) ep)) s
        {| did := did tr; asked := Datatypes.S (asked tr) |}
  end.

Definition exec {A} (p : Prog A) (s : S) : (X + A) * S * Trace :=
  run p s {| did := []; asked := 0 |}.

End Programs.

Arguments Ret {E X U A} a.
Arguments Throw {E X U A} x.
Arguments Do {E X U A} u k.
Arguments Await {E X U A T} ep k.
Arguments Resolved {X T} v.
Arguments Rejected {X T} x.
Arguments do {E X U} u.
Arguments await {E X U T} ep.

Definition result {X A S U} (r : (X + A) * S * Trace U) : X + A :=
  fst (fst r).
Definition final {X A S U} (r : (X + A) * S * Trace U) : S := snd (fst r).
Definition trace {X A S U} (r : (X + A) * S * Trace U) : Trace U := snd r.

End Async.

(* ================================================================== *)
(** * component/DockerUpdate.tsx *)
(* ================================================================== *)

Module DockerUpdate.
Import Js.

(** [interface ImageStatus]; [status] is kept a string, as the two
    functions that read it take it. *)
Record ImageStatus : Type :=
  { image : jsstring;
    currentDigest : jsstring;
    availableDigest : jsstring;
    hasUpdate : bool;
    status : jsstring;
    image_error : option jsstring }.

(** [interface LastUpdateStatus]; dates are milliseconds since the epoch. *)
Record LastUpdateStatus : Type :=
  { timestamp : N;
    images : list ImageStatus;
    totalImages : N;
    hasUpdates : bool;
    status_error : option jsstring }.

Record State : Type :=
  { checking : bool;
    error : option jsstring;
    updateStatus : option LastUpdateStatus;
    lastChecked : option N }.

Definition initial : State :=
  {| checking := false; error := None; updateStatus := None;
     lastChecked := None |}.

Inductive Setter : Type :=
| setChecking (b : bool)
| setError (e : option jsstring)
| setUpdateStatus (r : LastUpdateStatus)
| setLastChecked (d : N).

Definition apply (u : Setter) (s : State) : State :=
  match u with
  | setChecking b =>
      {| checking := b; error := error s; updateStatus := updateStatus s;
         lastChecked := lastChecked s |}
  | setError e =>
      {| checking := checking s; error := e; updateStatus := updateStatus s;
         lastChecked := lastChecked s |}
  | setUpdateStatus r =>
      {| checking := checking s; error := error s; updateStatus := Some r;
         lastChecked := lastChecked s |}
  | setLastChecked d =>
      {| checking := checking s; error := error s;
         updateStatus := updateStatus s; lastChecked := Some d |}
  end.

(** The one call of the component:
    [apiRequest<LastUpdateStatus>("/api/admin/docker-compose-status", "GET")]. *)
Inductive Call : Type -> Type :=
| DockerComposeStatus_GET : Call LastUpdateStatus.

Definition Prog : Type -> Type := Async.Prog Call Api.Err Setter.

(** Fetches the image statuses; [clock] is what [new Date()] reads when
    the answer is in. *)
Definition getLastStatus (clock : N) : Prog unit :=
  Async.bind (Async.do (setChecking true)) (fun _ =>
  Async.bind (Async.do (setError None)) (fun _ =>
  Async.try_finally
    (Async.try_catch
       (Async.bind (Async.await DockerComposeStatus_GET) (fun response =>
        Async.bind (Async.do (setUpdateStatus response)) (fun _ =>
        Async.do (setLastChecked clock))))
       (fun err =>
          Async.do (setError
                      (Some (or_default (Api.message err)
                               (lit "Failed to check for updates"))))))
    (Async.do (setChecking false)))).

(** The icon of an image row; the default one has the theme's disabled
    colour and no colour of its own. *)
Inductive ImageIcon : Type :=
| CheckCircleIcon (color : option jsstring)
| ErrorIcon (color : jsstring).

Definition statusWarningAlt : jsstring := lit "#fce354".

Definition getImageStatusIcon (status : jsstring) : ImageIcon :=
  if str_eqb status (lit "up-to-date") then
    CheckCircleIcon (Some colors.statusSuccess)
  else if str_eqb status (lit "update-available") then
    ErrorIcon statusWarningAlt
  else if str_eqb status (lit "error") then ErrorIcon colors.statusError
  else CheckCircleIcon None.

Record Chip : Type := { chip_label : jsstring; chip_color : jsstring }.

Definition getImageStatusChip (status : jsstring) (hasUpdate : bool) : Chip :=
  if str_eqb status (lit "up-to-date") then
    {| chip_label := lit "UP TO DATE"; chip_color := colors.statusSuccess |}
  else if str_eqb status (lit "update-available") then
    {| chip_label := lit "IN PROGRESS"; chip_color := statusWarningAlt |}
  else if str_eqb status (lit "error") then
    {| chip_label := lit "ERROR"; chip_color := colors.statusError |}
  else {| chip_label := lit "UNKNOWN"; chip_color := lit "#bdbdbd" |}.

Definition getOverallStatusText (hasUpdates : bool) : jsstring :=
  if hasUpdates then lit "UPDATES AVAILABLE" else lit "UP TO DATE".

(** [s.substring(0, n)] *)
Definition substring0 (n : nat) (s : jsstring) : jsstring := firstn n s.

(** The text after "Current: " and "Available: ". *)
Definition currentText (d : jsstring) : jsstring :=
  if str_eqb d (lit "local-not-found") then lit "Not found locally"
  else substring0 16 d ++ lit "...".

Definition availableText (d : jsstring) : jsstring :=
  if str_eqb d (lit "remote-not-found") then lit "Not found remotely"
  else substring0 16 d ++ lit "...".

(** Under the name of an image: the error line, or the two digests. *)
Inductive Detail : Type :=
| ErrorLine (text : jsstring)
| Digests (current available : jsstring).

Record Row : Type :=
  { row_icon : ImageIcon;
    row_image : jsstring;
    row_chip : Chip;
    row_detail : Detail }.

Definition renderRow (imageStatus : ImageStatus) : Row :=
  {| row_icon := getImageStatusIcon (status imageStatus);
     row_image := image imageStatus;
     row_chip := getImageStatusChip (status imageStatus) (hasUpdate imageStatus);
     row_detail :=
       match image_error imageStatus with
       | Some e =>
           if str_eqb (status imageStatus) (lit "error") && truthy e
           then ErrorLine e
           else Digests (currentText (currentDigest imageStatus))
                  (availableText (availableDigest imageStatus))
       | None =>
           Digests (currentText (currentDigest imageStatus))
             (availableText (availableDigest imageStatus))
       end |}.

(** The status line of the card and what is under it. *)
Record Header : Type :=
  { overall : Chip;
    loadingIndicator : bool;
    lastCheckedLine : option N;
    (** "[k] of [n] image(s) have updates available" *)
    summary : option (nat * nat) }.

Record View : Type :=
  { errorAlert : option jsstring;
    header : option Header;
    rows : option (list Row);
    emptyNotice : bool }.

Definition render (s : State) : View :=
  {| errorAlert := if truthy_opt (error s) then error s else None;
     header :=
       match updateStatus s with
       | Some u =>
           Some {| overall :=
                     {| chip_label := getOverallStatusText (hasUpdates u);
                        chip_color := if hasUpdates u then colors.statusWarning
                                      else colors.statusSuccessChip |};
                   loadingIndicator := checking s;
                   lastCheckedLine := lastChecked s;
                   summary :=
                     if hasUpdates u then
                       Some (List.length (filter hasUpdate (images u)),
                             List.length (images u))
                     else None |}
       | None => None
       end;
     rows :=
       match updateStatus s with
       | Some u =>
           if Nat.ltb 0 (List.length (images u))
           then Some (map renderRow (images u)) else None
       | None => None
       end;
     emptyNotice :=
       match updateStatus s with
       | Some u => Nat.eqb (List.length (images u)) 0
       | None => false
       end |}.

End DockerUpdate.

(* ================================================================== *)
(** * component/EnvConfiguration.tsx *)
(* ================================================================== *)

Module EnvConfiguration.
Import Js.

Record ConfigValues : Type :=
  { DOMAIN : jsstring;
    PROVIDER_STR : jsstring;
    UID : jsstring;
    DEFAULT_PWD : jsstring;
    PUBLIC_IP : jsstring;
    DEFAULT_USER : jsstring }.

Record State : Type :=
  { showPassword : bool;
    config : ConfigValues;
    loading : bool;
    error : option jsstring }.

Definition initial : State :=
  {| showPassword := false;
     config := {| DOMAIN := []; PROVIDER_STR := []; UID := [];
                  DEFAULT_PWD := []; PUBLIC_IP := []; DEFAULT_USER := [] |};
     loading := true;
     error := None |}.

(** The setter calls; [toggleShowPassword] is the functional update
    [setShowPassword(prev => !prev)]. *)
Inductive Setter : Type :=
| toggleShowPassword
| setConfig (c : ConfigValues)
| setLoading (b : bool)
| setError (e : option jsstring).

Definition apply (u : Setter) (s : State) : State :=
  match u with
  | toggleShowPassword =>
      {| showPassword := negb (showPassword s); config := config s;
         loading := loading s; error := error s |}
  | setConfig c =>
      {| showPassword := showPassword s; config := c; loading := loading s;
         error := error s |}
  | setLoading b =>
      {| showPassword := showPassword s; config := config s; loading := b;
         error := error s |}
  | setError e =>
      {| showPassword := showPassword s; config := config s;
         loading := loading s; error := e |}
  end.

(** The body of the answer: [{ status: string; data: ConfigValues }]. *)
Record Response : Type := { status : jsstring; data : ConfigValues }.

Inductive Call : Type -> Type :=
| GetEnvironment_GET : Call Response.

(** What the [catch (err)] clause tells apart: an instance of [Error],
    with its message, or anything else. *)
Inductive Thrown : Type :=
| IsError (message : jsstring)
| NotError.

Definition Prog : Type -> Type := Async.Prog Call Thrown Setter.

Definition fetchConfig : Prog unit :=
  Async.try_finally
    (Async.try_catch
       (Async.bind (Async.do (setLoading true)) (fun _ =>
        Async.bind (Async.do (setError None)) (fun _ =>
        Async.bind (Async.await GetEnvironment_GET) (fun response =>
        if str_eqb (status response) (lit "success") then
          Async.do (setConfig (data response))
        else
          Async.do (setError (Some (lit "Failed to load configuration")))))))
       (fun err =>
          Async.do (setError
                      (Some match err with
                            | IsError m => m
                            | NotError => lit "Failed to load configuration"
                            end))))
    (Async.do (setLoading false)).

Definition handleTogglePasswordVisibility : Prog unit :=
  Async.do toggleShowPassword.

Inductive FieldType : Type := password | text.

Record Field : Type :=
  { key : jsstring; label : jsstring; value : jsstring; type : FieldType }.

Definition configFields (c : ConfigValues) : list Field :=
  [ {| key := lit "DEFAULT_PWD"; label := lit "Password";
       value := DEFAULT_PWD c; type := password |};
    {| key := lit "DOMAIN"; label := lit "Domain";
       value := DOMAIN c; type := text |};
    {| key := lit "PROVIDER_STR"; label := lit "Provider";
       value := PROVIDER_STR c; type := text |};
    {| key := lit "UID"; label := lit "User ID";
       value := UID c; type := text |};
    {| key := lit "DEFAULT_USER"; label := lit "Default User";
       value := DEFAULT_USER c; type := text |};
    {| key := lit "PUBLIC_IP"; label := lit "Public IP";
       value := PUBLIC_IP c; type := text |} ].

(** The icon of the visibility toggle. *)
Inductive ToggleIcon : Type := Visibility | VisibilityOff.

(** A rendered text field: its input type and, for a password, the
    toggle at its end. *)
Record TextField : Type :=
  { tf_key : jsstring;
    tf_label : jsstring;
    tf_value : jsstring;
    tf_type : FieldType;
    tf_toggle : option ToggleIcon }.

Definition is_password (t : FieldType) : bool :=
  match t with
  | password => true
  | text => false
  end.

Definition renderField (showPassword : bool) (f : Field) : TextField :=
  {| tf_key := key f;
     tf_label := label f;
     tf_value := or_default (Some (value f)) (lit "");
     tf_type := if is_password (type f) && negb showPassword then password
                else text;
     tf_toggle :=
       if is_password (type f)
       then Some (if showPassword then VisibilityOff else Visibility)
       else None |}.

(** The three cards the component returns. *)
Inductive View : Type :=
| LoadingCard
| ErrorCard (message : jsstring)
| Form (fields : list TextField).

Definition render (s : State) : View :=
  if loading s then LoadingCard
  else
    match error s with
    | Some (c :: e) => ErrorCard (c :: e)
    | _ => Form (map (renderField (showPassword s)) (configFields (config s)))
    end.

End EnvConfiguration.

(* ================================================================== *)
(** * app/pages/Login.tsx *)
(* ================================================================== *)

Module Login.
Import Js.

(** [interface FormValues { username?; password? }] *)
Record FormValues : Type :=
  { username : option jsstring; password : option jsstring }.

(** What [login(...)] rejects with, as the handler tells it apart: a
    string, [undefined], or an object with or without a [message]. *)
Inductive LoginError : Type :=
| ErrString (s : jsstring)
| ErrUndefined
| ErrObject (message : option jsstring).

(** [login(auth, pathname)] of [useLogin]. *)
Inductive Call : Type -> Type :=
| login (auth : FormValues) (pathname : option jsstring) : Call unit.

(** The calls made for their effect: the setter of [loading] and
    [notify(message, { type: 'error', messageArgs: { _: arg } })]. *)
Inductive Effect : Type :=
| setLoading (b : bool)
| notify_error (message : jsstring) (arg : option jsstring).

Definition apply (u : Effect) (loading : bool) : bool :=
  match u with
  | setLoading b => b
  | notify_error _ _ => loading
  end.

Definition Prog : Type -> Type := Async.Prog Call LoginError Effect.

(** [typeof error === 'string' ? error
      : typeof error === 'undefined' || !error.message
        ? 'ra.auth.sign_in_error' : error.message] *)
Definition notification_message (error : LoginError) : jsstring :=
  match error with
  | ErrString s => s
  | ErrUndefined => lit "ra.auth.sign_in_error"
  | ErrObject m =>
      if negb (truthy_opt m) then lit "ra.auth.sign_in_error"
      else match m with Some t => t | None => [] end
  end.

(** [typeof error === 'string' ? error
      : error && error.message ? error.message : undefined] *)
Definition notification_arg (error : LoginError) : option jsstring :=
  match error with
  | ErrString s => Some s
  | ErrUndefined => None
  | ErrObject m => if truthy_opt m then m else None
  end.

(** [location.state ? (location.state as any).nextPathname : '/'], the
    state of the location being absent or an object whose [nextPathname]
    may be missing. *)
Definition next_pathname (location_state : option (option jsstring))
  : option jsstring :=
  match location_state with
  | Some nextPathname => nextPathname
  | None => Some (lit "/")
  end.

Definition handleSubmit (location_state : option (option jsstring))
  (auth : FormValues) : Prog unit :=
  Async.bind (Async.do (setLoading true)) (fun _ =>
  Async.try_catch
    (Async.await (login auth (next_pathname location_state)))
    (fun error =>
       Async.bind (Async.do (setLoading false)) (fun _ =>
       Async.do (notify_error (notification_message error)
                   (notification_arg error))))).

End Login.

(* ================================================================== *)
(** * The application shell *)
(* ================================================================== *)

(** [App.tsx]: the choice of the theme, the routes and resources of the
    panels, and the sidebar menu.  The theme options, routes, resources and
    the translation function belong to the admin framework; the shell
    passes them along untouched, so they are parameters here. *)
Module App.
Import Js.

Section Shell.

Variables ThemeOptions Route ResourceProps : Type.

(** [translate(key, { smart_count })] of [useTranslate]. *)
Variable translate : jsstring -> N -> jsstring.

(** A [Theme] of the theme list, as far as the shell reads it. *)
Record Theme : Type :=
  { theme_name : jsstring;
    light : option ThemeOptions;
    dark : option ThemeOptions }.

(** A [PanelInterface], as far as the shell reads it: [route] and
    [resource] may be missing. *)
Record PanelRoute : Type := { routes : list Route }.

Record PanelInterface : Type :=
  { name : jsstring;
    route : option PanelRoute;
    resource : option ResourceProps }.

(** [themeList.find(theme => theme.name === themeName)] *)
Definition currentTheme (themeList : list Theme) (themeName : jsstring)
  : option Theme :=
  find (fun theme => str_eqb (theme_name theme) themeName) themeList.

(** [currentTheme?.light || themeList[0]?.light]; theme options are
    objects, so one that is present is truthy. *)
Definition lightTheme (themeList : list Theme) (themeName : jsstring)
  : option ThemeOptions :=
  match
    match currentTheme themeList themeName with
    | Some theme => light theme
    | None => None
    end
  with
  | Some options => Some options
  | None =>
      match nth_error themeList 0 with
      | Some theme => light theme
      | None => None
      end
  end.

(** [currentTheme?.dark || themeList[0]?.dark] *)
Definition darkTheme (themeList : list Theme) (themeName : jsstring)
  : option ThemeOptions :=
  match
    match currentTheme themeList themeName with
    | Some theme => dark theme
    | None => None
    end
  with
  | Some options => Some options
  | None =>
      match nth_error themeList 0 with
      | Some theme => dark theme
      | None => None
      end
  end.

(** [arr.push(x)] *)
Definition push {A : Type} (arr : list A) (x : A) : list A := arr ++ [x].

(** The two nested loops that collect the routes of the panels:
    [for (const panel of panels) if (panel.route)
       for (const route of panel.route.routes) panelsRoutes.push(route)]. *)
Definition panelsRoutes (panels : list PanelInterface) : list Route :=
  fold_left
    (fun acc panel =>
       match route panel with
       | Some r => fold_left push (routes r) acc
       | None => acc
       end)
    panels [].

(** The children of [Admin] made from the panels: a [Resource] with the
    name of the panel as key for a panel that has one, [null] otherwise. *)
Definition resources (panels : list PanelInterface)
  : list (option (jsstring * ResourceProps)) :=
  map (fun value =>
         match resource value with
         | Some props => Some (name value, props)
         | None => None
         end)
      panels.

(** What [App] hands to [Admin]. *)
Record AdminProps : Type :=
  { admin_lightTheme : option ThemeOptions;
    admin_darkTheme : option ThemeOptions;
    admin_defaultTheme : jsstring;
    admin_customRoutes : list Route;
    admin_resources : list (option (jsstring * ResourceProps)) }.

Definition app (themeList : list Theme) (panels : list PanelInterface)
    (themeName : jsstring) : AdminProps :=
  {| admin_lightTheme := lightTheme themeList themeName;
     admin_darkTheme := darkTheme themeList themeName;
     admin_defaultTheme := lit "dark";
     admin_customRoutes := map (fun value => value) (panelsRoutes panels);
     admin_resources := resources panels |}.

(** A [MenuItemLink] of the sidebar. *)
Record MenuItemLink : Type :=
  { link_key : jsstring;
    link_to : jsstring;
    link_primaryText : jsstring;
    link_dense : bool }.

(** [MenuItem(panel, dense, translate)] *)
Definition MenuItem (panel : PanelInterface) (dense : bool) : MenuItemLink :=
  {| link_key := name panel;
     link_to := lit "/" ++ name panel;
     link_primaryText :=
       translate (lit "resources." ++ name panel ++ lit ".name") 2;
     link_dense := dense |}.

(** The entries of the sidebar, top down. *)
Inductive MenuEntry : Type :=
| DashboardMenuItem
| PanelLink (l : MenuItemLink)
| PlainItem (text : jsstring)
| CategoryLabel (text : jsstring).

(** [Menu(panels)({ dense = false })] *)
Definition Menu (panels : list PanelInterface) (dense : option bool)
  : list MenuEntry :=
  let dense := match dense with Some d => d | None => false end in
  DashboardMenuItem
    :: map (fun value => PanelLink (MenuItem value dense)) panels
    ++ [PlainItem (lit "Other"); CategoryLabel (lit "CATEGORY");
        PlainItem (lit "More options...")].

(** The panel links of a menu, in order. *)
Fixpoint panel_links (m : list MenuEntry) : list MenuItemLink :=
  match m with
  | [] => []
  | PanelLink l :: t => l :: panel_links t
  | _ :: t => panel_links t
  end.

End Shell.

End App.

(* ================================================================== *)
(** * Facts about strings *)
(* ================================================================== *)

Module JsFacts.
Import Js.

Lemma str_eqb_eq (a b : jsstring) : str_eqb a b = true <-> a = b.
Proof.
  revert b; induction a as [|x a IH]; intros [|y b]; simpl;
    try (split; [discriminate | congruence]); try tauto.
  rewrite andb_true_iff, N.eqb_eq, IH.
  split; [intros [-> ->]; reflexivity | intros H; inversion H; auto].
Qed.

Lemma str_eqb_neq (a b : jsstring) : a <> b -> str_eqb a b = false.
Proof.
  intros H; destruct (str_eqb a b) eqn:E; [|reflexivity].
  apply str_eqb_eq in E; contradiction.
Qed.

Lemma trimStart_blank (s : jsstring) :
  forallb isWhiteSpace s = true -> trimStart s = [].
Proof.
  induction s as [|c s IH]; simpl; [reflexivity|].
  intros H; apply andb_true_iff in H as [Hc Hs].
  rewrite Hc; auto.
Qed.

Lemma trimStart_nil_blank (s : jsstring) :
  trimStart s = [] -> forallb isWhiteSpace s = true.
Proof.
  induction s as [|c s IH]; simpl; [reflexivity|].
  destruct (isWhiteSpace c); [auto | discriminate].
Qed.

(** [trim] leaves nothing exactly of the strings made of white space only,
    the empty string among them. *)
Lemma trim_blank (s : jsstring) :
  trim s = [] <-> forallb isWhiteSpace s = true.
Proof.
  unfold trim, trimEnd; split.
  - intros H.
    destruct (trimStart s) as [|n l] eqn:E; [apply trimStart_nil_blank; exact E|].
    exfalso. apply (f_equal (@rev N)) in H. rewrite rev_involutive in H.
    simpl in H.
    assert (Hl : trimStart (rev (n :: l)) = []) by exact H.
    apply trimStart_nil_blank in Hl.
    rewrite forallb_forall in Hl.
    assert (Hn : isWhiteSpace n = true)
      by (apply Hl; apply in_rev; rewrite rev_involutive; left; reflexivity).
    clear H Hl. revert E.
    induction s as [|c s IH]; simpl; [discriminate|].
    destruct (isWhiteSpace c) eqn:Ec; [exact IH|].
    intros H; inversion H; subst; congruence.
  - intros H; rewrite (trimStart_blank s H); reflexivity.
Qed.

Lemma or_default_truthy (o : option jsstring) (d : jsstring) :
  truthy d = true -> truthy (or_default o d) = true.
Proof. destruct o as [[|c r]|]; simpl; auto. Qed.

End JsFacts.

(* ================================================================== *)
(** * Facts about numbers: numerals, binary64 rounding, division by 1000 *)
(* ================================================================== *)

Module NumberFacts.
Import Js.

(** ** Decimal numerals *)

(** The numeral does not depend on the bound, once it is large enough. *)
Lemma digits_of_enough (f1 f2 : nat) (n : N) :
  (n < 10 ^ N.of_nat f1)%N -> (n < 10 ^ N.of_nat f2)%N ->
  digits_of f1 n = digits_of f2 n.
Proof.
  revert f2 n. induction f1 as [|f1 IH]; intros [|f2] n H1 H2.
  - reflexivity.
  - simpl in H1. assert (n = 0%N) by lia. subst. reflexivity.
  - simpl in H2. assert (n = 0%N) by lia. subst. reflexivity.
  - cbn [digits_of]. destruct (N.ltb_spec n 10); [reflexivity|].
    f_equal. apply IH.
    + rewrite Nat2N.inj_succ, N.pow_succ_r' in H1.
      apply N.Div0.div_lt_upper_bound. lia.
    + rewrite Nat2N.inj_succ, N.pow_succ_r' in H2.
      apply N.Div0.div_lt_upper_bound. lia.
Qed.

Lemma size_enough (n : N) : (n < 10 ^ N.of_nat (N.to_nat (N.size n)))%N.
Proof.
  rewrite N2Nat.id.
  apply N.lt_le_trans with (2 ^ N.size n)%N; [apply N.size_gt|].
  apply N.pow_le_mono_l. lia.
Qed.

Lemma decimal_digit (n : N) : (n < 10)%N -> decimal n = [(48 + n)%N].
Proof.
  intros H. unfold decimal.
  rewrite (@digits_of_enough _ 1 n); [|apply size_enough|simpl; lia].
  simpl. destruct (N.ltb_spec n 10); [reflexivity|lia].
Qed.

Lemma decimal_step (n : N) :
  (10 <= n)%N -> decimal n = decimal (n / 10) ++ [(48 + n mod 10)%N].
Proof.
  intros H. unfold decimal.
  pose proof (size_enough n) as Hn.
  destruct (N.to_nat (N.size n)) as [|f] eqn:E.
  - simpl in Hn. lia.
  - cbn [digits_of]. destruct (N.ltb_spec n 10); [lia|]. f_equal.
    apply digits_of_enough; [|apply size_enough].
    rewrite Nat2N.inj_succ, N.pow_succ_r' in Hn.
    apply N.Div0.div_lt_upper_bound. lia.
Qed.

Lemma decimal_nonempty (n : N) : decimal n <> [].
Proof.
  destruct (N.ltb_spec n 10).
  - rewrite decimal_digit by assumption. discriminate.
  - rewrite decimal_step by assumption. intros E. apply app_eq_nil in E as [_ E]. discriminate.
Qed.

(** Ten tenths or more, printed with one decimal. *)
Lemma fixed_numeral_tenths (k : Z) :
  (10 <= k)%Z ->
  fixed_numeral k 1
  = decimal (Z.to_N k / 10) ++ lit "." ++ decimal (Z.to_N k mod 10).
Proof.
  intros Hk. unfold fixed_numeral.
  rewrite (@decimal_step (Z.to_N k)) by lia.
  set (hi := decimal (Z.to_N k / 10)).
  assert (Hhi : hi <> []) by apply decimal_nonempty.
  rewrite (@decimal_digit (Z.to_N k mod 10)%N)
    by (apply N.mod_lt; discriminate).
  cbn [N.eqb N.to_nat]. change (Pos.to_nat 1) with 1%nat.
  assert (L : List.length (hi ++ [(48 + Z.to_N k mod 10)%N])
              = S (List.length hi)) by (rewrite length_app; simpl; lia).
  rewrite L.
  replace (1 + 1 - S (List.length hi))%nat with 0%nat
    by (destruct hi; [contradiction|simpl; lia]).
  cbn [repeat List.length app Nat.add]. rewrite L.
  replace (S (List.length hi) - 1)%nat with (List.length hi) by lia.
  rewrite firstn_app, skipn_app, firstn_all, skipn_all, Nat.sub_diag.
  simpl. rewrite app_nil_r. reflexivity.
Qed.

(** ** Rounding to binary64 *)

Local Open Scope Z_scope.

(** The number of binary digits of a mantissa. *)
Lemma digits2_pos_size (p : positive) : digits2_pos p = Pos.size p.
Proof. induction p; simpl; congruence. Qed.

Lemma digits2_pos_bounds (p : positive) :
  2 ^ (Z.pos (digits2_pos p) - 1) <= Z.pos p < 2 ^ Z.pos (digits2_pos p).
Proof.
  rewrite digits2_pos_size. split.
  - pose proof (Pos.size_le p) as H.
    assert (H' : 2 ^ Z.pos (Pos.size p) <= 2 * Z.pos p).
    { change (2 * Z.pos p) with (Z.pos p~0). rewrite <- Pos2Z.inj_pow. exact H. }
    replace (Z.pos (Pos.size p)) with (Z.succ (Z.pos (Pos.size p) - 1)) in H' by lia.
    rewrite Z.pow_succ_r in H' by lia. lia.
  - pose proof (Pos.size_gt p) as H.
    rewrite <- Pos2Z.inj_pow. exact H.
Qed.

Lemma digits2_pos_unique (p : positive) (k : Z) :
  2 ^ (k - 1) <= Z.pos p < 2 ^ k -> Z.pos (digits2_pos p) = k.
Proof.
  intros [Hl Hu]. pose proof (digits2_pos_bounds p) as [Bl Bu].
  assert (0 < k).
  { destruct (Z.ltb_spec 0 k); auto. exfalso.
    destruct (Z.eqb_spec k 0). subst. simpl in Hu. lia.
    rewrite Z.pow_neg_r in Hu by lia. lia. }
  destruct (Z.lt_trichotomy (Z.pos (digits2_pos p)) k) as [L|[E|G]]; auto; exfalso.
  - assert (2 ^ Z.pos (digits2_pos p) <= 2 ^ (k - 1)) by (apply Z.pow_le_mono_r; lia). lia.
  - assert (2 ^ k <= 2 ^ (Z.pos (digits2_pos p) - 1)) by (apply Z.pow_le_mono_r; lia). lia.
Qed.

Lemma iter_xO_value (p k : positive) :
  Z.pos (Pos.iter xO p k) = Z.pos p * 2 ^ Z.pos k.
Proof.
  induction k using Pos.peano_ind.
  - simpl. lia.
  - rewrite Pos.iter_succ. rewrite Pos2Z.inj_xO, IHk, Pos2Z.inj_succ, Z.pow_succ_r by lia. lia.
Qed.

Lemma fexp_normal (e : Z) : -1021 <= e -> fexp prec emax e = e - 53.
Proof. unfold fexp, SpecFloat.emin, prec, emax. lia. Qed.

Lemma loc_of_record (m : Z) (l : location) :
  loc_of_shr_record (shr_record_of_loc m l) = l /\ shr_m (shr_record_of_loc m l) = m.
Proof. destruct l as [|[]]; split; reflexivity. Qed.

(** The second shift of [binary_round_aux]: a rounded mantissa has 53
    digits, or is exactly 2^53 and is halved. *)
Lemma renormalise (s : bool) (m : positive) (e : Z) :
  2 ^ 52 <= Z.pos m <= 2 ^ 53 -> -1000 <= e <= 900 ->
  exists mz t,
    (let '(mrs, e') := shr_fexp prec emax (Z.pos m) e loc_Exact in
     match shr_m mrs with
     | Z0 => S754_zero s
     | Zpos m' => if e' <=? emax - prec then S754_finite s m' e' else S754_infinity s
     | Zneg _ => S754_nan
     end) = S754_finite s mz (e + t)
    /\ 0 <= t <= 1
    /\ 2 ^ 52 <= Z.pos mz < 2 ^ 53
    /\ Z.pos mz * 2 ^ t = Z.pos m.
Proof.
  intros Hm He.
  destruct (Z.eq_dec (Z.pos m) (2 ^ 53)) as [E|NE].
  - assert (m = 9007199254740992%positive) by (apply Pos2Z.inj; rewrite E; reflexivity).
    subst m. exists 4503599627370496%positive, 1.
    unfold shr_fexp. simpl Zdigits2. rewrite fexp_normal by lia.
    replace (54 + e - 53 - e) with 1 by lia.
    simpl. rewrite (proj2 (Z.leb_le _ _)) by lia.
    repeat split; try lia.
  - exists m, 0.
    assert (D : Z.pos (digits2_pos m) = 53) by (apply digits2_pos_unique; lia).
    unfold shr_fexp. simpl Zdigits2. rewrite D. rewrite fexp_normal by lia.
    replace (53 + e - 53 - e) with 0 by lia.
    simpl. rewrite (proj2 (Z.leb_le _ _)) by lia.
    rewrite Z.add_0_r. repeat split; try lia.
Qed.

Lemma pow2_split (t : Z) : 0 <= t <= 1 -> 2 ^ t = 1 \/ 2 ^ t = 2.
Proof. intros H. assert (t = 0 \/ t = 1) as [->| ->] by lia; auto. Qed.

(** The end of [binary_round_aux], once the first shift and the rounding
    have produced the mantissa [m1]: the error bound on [m1] is kept. *)
Lemma round_finish (m1 : positive) (e shift : Z) (q r den : Z) :
  2 ^ 52 <= Z.pos m1 <= 2 ^ 53 -> -1000 <= e <= 900 ->
  0 <= shift <= 1 -> 0 < den ->
  2 * Z.abs (Z.pos m1 * 2 ^ shift * den - (q * den + r)) <= 2 ^ shift * den ->
  exists mz t,
    (let '(mrs, e') := shr_fexp prec emax (Z.pos m1) e loc_Exact in
     match shr_m mrs with
     | Z0 => S754_zero false
     | Zpos m' => if e' <=? emax - prec then S754_finite false m' e' else S754_infinity false
     | Zneg _ => S754_nan
     end) = S754_finite false mz (e - shift + t)
    /\ 0 <= t <= 2
    /\ 2 ^ 52 <= Z.pos mz < 2 ^ 53
    /\ 2 * Z.abs (Z.pos mz * 2 ^ t * den - (q * den + r)) <= 2 ^ t * den.
Proof.
  intros Hm He Hs Hden Hb.
  destruct (@renormalise false m1 e Hm He) as (mz & t & Heq & Ht & Hmz & Hv).
  exists mz, (t + shift). rewrite Heq.
  split; [f_equal; lia|]. split; [lia|]. split; [lia|].
  rewrite Z.pow_add_r by lia.
  replace (Z.pos mz * (2 ^ t * 2 ^ shift) * den) with (Z.pos m1 * 2 ^ shift * den)
    by (rewrite <- Hv; ring).
  assert (1 <= 2 ^ t) by (destruct (@pow2_split t Ht) as [-> | ->]; lia).
  assert (0 < 2 ^ shift) by (destruct (@pow2_split shift Hs) as [-> | ->]; lia).
  nia.
Qed.

(** [binary_round_aux] on an integer quotient [q] of 53 or 54 digits with
    remainder [r] over [den]: the result is a normal number, and its
    distance to [q + r / den] is at most half a unit of its last place. *)
Lemma round_quotient (q : positive) (e r den : Z) :
  2 ^ 52 <= Z.pos q < 2 ^ 54 -> -1000 <= e <= 800 -> 0 <= r < den ->
  exists mz t,
    binary_round_aux prec emax false (Z.pos q) e
      (if r =? 0 then loc_Exact else loc_Inexact (2 * r ?= den))
    = S754_finite false mz (e + t)
    /\ 0 <= t <= 2
    /\ 2 ^ 52 <= Z.pos mz < 2 ^ 53
    /\ 2 * Z.abs (Z.pos mz * 2 ^ t * den - (Z.pos q * den + r)) <= 2 ^ t * den.
Proof.
  intros Hq He Hr.
  unfold binary_round_aux.
  destruct (Z.ltb_spec (Z.pos q) (2 ^ 53)) as [Hlt|Hge].
  - (* 53 digits: no shift *)
    assert (D : Z.pos (digits2_pos q) = 53) by (apply digits2_pos_unique; lia).
    unfold shr_fexp at 1. simpl Zdigits2. rewrite D, fexp_normal by lia.
    replace (53 + e - 53 - e) with 0 by lia. unfold shr at 1.
    destruct (loc_of_record (Z.pos q)
                (if r =? 0 then loc_Exact else loc_Inexact (2 * r ?= den)))
      as [-> ->].
    assert (R : exists m1, round_nearest_even (Z.pos q)
                  (if r =? 0 then loc_Exact else loc_Inexact (2 * r ?= den))
                = Z.pos m1
                /\ 2 ^ 52 <= Z.pos m1 <= 2 ^ 53
                /\ 2 * Z.abs (Z.pos m1 * 2 ^ 0 * den - (Z.pos q * den + r))
                   <= 2 ^ 0 * den).
    { cbv beta iota delta [round_nearest_even].
      destruct (Z.eqb_spec r 0) as [->|Hr0].
      - exists q. split; [reflexivity|]. split; lia.
      - destruct (Z.compare_spec (2 * r) den) as [Ec|Ec|Ec].
        + destruct (Z.even (Z.pos q)).
          * exists q. split; [reflexivity|]. split; lia.
          * exists (q + 1)%positive. split; [reflexivity|]. split; lia.
        + exists q. split; [reflexivity|]. split; lia.
        + exists (q + 1)%positive. split; [reflexivity|]. split; lia. }
    destruct R as (m1 & -> & Hm1 & Hb).
    destruct (@round_finish m1 e 0 (Z.pos q) r den) as (mz & t & Heq & H1 & H2 & H3);
      try lia.
    exists mz, t. rewrite Heq. split; [f_equal; lia|]. auto.
  - (* 54 digits: one shift *)
    assert (D : Z.pos (digits2_pos q) = 54) by (apply digits2_pos_unique; lia).
    unfold shr_fexp at 1. simpl Zdigits2. rewrite D, fexp_normal by lia.
    replace (54 + e - 53 - e) with 1 by lia. unfold shr at 1.
    cbv beta iota delta [iter_pos].
    assert (R : exists m1,
               round_nearest_even
                 (shr_m (shr_1 (shr_record_of_loc (Z.pos q)
                    (if r =? 0 then loc_Exact else loc_Inexact (2 * r ?= den)))))
                 (loc_of_shr_record (shr_1 (shr_record_of_loc (Z.pos q)
                    (if r =? 0 then loc_Exact else loc_Inexact (2 * r ?= den)))))
               = Z.pos m1
               /\ 2 ^ 52 <= Z.pos m1 <= 2 ^ 53
               /\ 2 * Z.abs (Z.pos m1 * 2 ^ 1 * den - (Z.pos q * den + r))
                  <= 2 ^ 1 * den).
    { destruct q as [p|p|]; [| |lia].
      - (* odd *)
        destruct (Z.eqb_spec r 0) as [->|Hr0].
        + cbv beta iota delta [round_nearest_even shr_m shr_1 shr_record_of_loc
                                 loc_of_shr_record orb].
          destruct (Z.even (Z.pos p)) eqn:Ev.
          * exists p. split; [reflexivity|]. split; lia.
          * exists (p + 1)%positive. split; [reflexivity|]. split; lia.
        + destruct (2 * r ?= den);
            cbv beta iota delta [round_nearest_even shr_m shr_1
                                   shr_record_of_loc loc_of_shr_record orb];
            (exists (p + 1)%positive; split; [reflexivity|]; split; lia).
      - (* even *)
        destruct (Z.eqb_spec r 0) as [->|Hr0].
        + exists p. split; [reflexivity|]. split; lia.
        + destruct (2 * r ?= den);
            (exists p; split; [reflexivity|]; split; lia). }
    destruct R as (m1 & -> & Hm1 & Hb).
    destruct (@round_finish m1 (e + 1) 1 (Z.pos q) r den) as (mz & t & Heq & H1 & H2 & H3);
      try lia.
    exists mz, t. rewrite Heq. split; [f_equal; lia|]. auto.
Qed.

(** Where a remainder lies: exact, below, at or above the half. *)
Lemma new_location_spec (den r : Z) :
  0 <= r < den ->
  new_location den r
  = if r =? 0 then loc_Exact else loc_Inexact (2 * r ?= den).
Proof.
  intros Hr. unfold new_location.
  destruct (Z.even den) eqn:Ev; [reflexivity|].
  unfold new_location_odd.
  destruct (Z.eqb_spec r 0); [reflexivity|]. f_equal.
  assert (Ho : Z.odd den = true) by (rewrite <- Z.negb_even, Ev; reflexivity).
  apply Z.odd_spec in Ho as [k Hk].
  destruct (Z.compare_spec (2 * r + 1) den), (Z.compare_spec (2 * r) den);
    try reflexivity; lia.
Qed.

(** The quotient of two positive normal numbers is the exact quotient
    rounded to nearest. *)
Lemma div_normal (mx my : positive) (ex ey : Z) :
  2 ^ 52 <= Z.pos mx < 2 ^ 53 -> 2 ^ 52 <= Z.pos my < 2 ^ 53 ->
  -900 <= ex - ey <= 800 ->
  exists mz t,
    div (S754_finite false mx ex) (S754_finite false my ey)
    = S754_finite false mz (ex - ey - 53 + t)
    /\ 0 <= t <= 2
    /\ 2 ^ 52 <= Z.pos mz < 2 ^ 53
    /\ 2 * Z.abs (Z.pos mz * 2 ^ t * Z.pos my - Z.pos mx * 2 ^ 53)
       <= 2 ^ t * Z.pos my.
Proof.
  intros Hx Hy He.
  assert (Dx : Z.pos (digits2_pos mx) = 53) by (apply digits2_pos_unique; lia).
  assert (Dy : Z.pos (digits2_pos my) = 53) by (apply digits2_pos_unique; lia).
  unfold div, SFdiv, SFdiv_core_binary. simpl Zdigits2. rewrite Dx, Dy.
  rewrite fexp_normal by lia.
  replace (Z.min (53 + ex - (53 + ey) - 53) (ex - ey)) with (ex - ey - 53) by lia.
  replace (ex - ey - (ex - ey - 53)) with 53 by lia.
  cbv iota. rewrite Z.shiftl_mul_pow2 by lia.
  pose proof (Z_div_mod (Z.pos mx * 2 ^ 53) (Z.pos my) eq_refl) as Hdm.
  destruct (Z.div_eucl (Z.pos mx * 2 ^ 53) (Z.pos my)) as [q r].
  destruct Hdm as [Hq Hr].
  assert (Hqb : 2 ^ 52 <= q < 2 ^ 54) by nia.
  destruct q as [|qp|qp]; try lia.
  rewrite new_location_spec by lia.
  destruct (@round_quotient qp (ex - ey - 53) r (Z.pos my)) as (mz & t & Heq & Ht & Hmz & Hb);
    try lia.
  exists mz, t. simpl xorb. rewrite Heq. repeat split; lia.
Qed.

(** A mantissa of 53 digits with nothing to round is kept. *)
Lemma round_exact (m : positive) (e : Z) :
  2 ^ 52 <= Z.pos m < 2 ^ 53 -> -1000 <= e <= 900 ->
  binary_round_aux prec emax false (Z.pos m) e loc_Exact
  = S754_finite false m e.
Proof.
  intros Hm He. unfold binary_round_aux.
  assert (D : Z.pos (digits2_pos m) = 53) by (apply digits2_pos_unique; lia).
  unfold shr_fexp at 1. simpl Zdigits2. rewrite D, fexp_normal by lia.
  replace (53 + e - 53 - e) with 0 by lia. unfold shr at 1.
  destruct (loc_of_record (Z.pos m) loc_Exact) as [-> ->].
  change (round_nearest_even (Z.pos m) loc_Exact) with (Z.pos m).
  destruct (@renormalise false m e) as (mz & t & Heq & Ht & Hmz & Hv); try lia.
  rewrite Heq.
  assert (t = 0 \/ t = 1) as [-> | ->] by lia; [|exfalso; lia].
  f_equal; [apply Pos2Z.inj|]; lia.
Qed.

(** A positive integer below 2^53 is its own binary64 value. *)
Lemma of_Z_normal (z : Z) :
  0 < z < 2 ^ 53 ->
  exists m d,
    of_Z z = S754_finite false m (d - 53)
    /\ 1 <= d <= 53
    /\ 2 ^ 52 <= Z.pos m < 2 ^ 53
    /\ Z.pos m = z * 2 ^ (53 - d).
Proof.
  intros Hz. destruct z as [|p|p]; try lia.
  pose proof (digits2_pos_bounds p) as Hb.
  set (d := Z.pos (digits2_pos p)) in *.
  assert (Hd : 1 <= d <= 53).
  { split; [unfold d; lia|].
    destruct (Z.leb_spec d 53); auto. exfalso.
    assert (2 ^ 53 <= 2 ^ (d - 1)) by (apply Z.pow_le_mono_r; lia). lia. }
  unfold of_Z, binary_normalize, binary_round.
  fold d. rewrite Z.add_0_r, fexp_normal by lia.
  unfold shl_align.
  destruct (d - 53 - 0) as [|k|k] eqn:Ek; try lia.
  - (* already 53 digits *)
    exists p, d. replace (53 - d) with 0 by lia.
    assert (Hp : 2 ^ 52 <= Z.pos p < 2 ^ 53) by (replace d with 53 in Hb by lia; lia).
    rewrite round_exact by lia.
    repeat split; try lia. f_equal; lia.
  - (* shifted left by 53 - d *)
    pose proof (iter_xO_value p k) as Hv.
    set (m := Pos.iter xO p k) in *.
    assert (Hk : Z.pos k = 53 - d) by lia.
    assert (Hp : 2 ^ 52 <= Z.pos m < 2 ^ 53).
    { rewrite Hv, Hk.
      replace (2 ^ 52) with (2 ^ (d - 1) * 2 ^ (53 - d))
        by (rewrite <- Z.pow_add_r by lia; f_equal; lia).
      replace (2 ^ 53) with (2 ^ d * 2 ^ (53 - d))
        by (rewrite <- Z.pow_add_r by lia; f_equal; lia).
      assert (0 < 2 ^ (53 - d)) by (apply Z.pow_pos_nonneg; lia).
      nia. }
    exists m, d.
    rewrite round_exact by lia.
    repeat split; try lia.
    rewrite Hv, Hk. reflexivity.
Qed.

(** ** The quotient of a millisecond count by 1000 *)

Lemma of_Z_1000 : of_Z 1000 = S754_finite false 8796093022208000 (-43).
Proof. reflexivity. Qed.

(** The binary64 quotient of a safe millisecond count by 1000: a positive
    normal number [m * 2^e] within half a unit in the last place of the
    exact quotient. *)
Lemma div_by_1000 (d : Z) :
  1000 <= d <= MAX_SAFE_INTEGER ->
  exists m e,
    div (of_Z d) (of_Z 1000) = S754_finite false m e
    /\ e <= -9
    /\ 2 ^ 52 <= Z.pos m < 2 ^ 53
    /\ 2 * Z.abs (1000 * Z.pos m - d * 2 ^ (- e)) <= 1000.
Proof.
  unfold MAX_SAFE_INTEGER. intros Hd.
  destruct (@of_Z_normal d) as (mx & a & Hx & Ha & Hmx & Hvx); [lia|].
  rewrite Hx, of_Z_1000.
  destruct (@div_normal mx 8796093022208000 (a - 53) (-43))
    as (mz & t & Heq & Ht & Hmz & Hb); try lia.
  rewrite Heq. exists mz, (a - 53 - -43 - 53 + t).
  split; [reflexivity|].
  set (E := 2 ^ (- (a - 53 - -43 - 53 + t))).
  assert (HE : 0 < E) by (apply Z.pow_pos_nonneg; lia).
  assert (Hsplit : Z.pos mx * 2 ^ 53 = d * E * (2 ^ t * 2 ^ 43)).
  { rewrite Hvx. unfold E. rewrite <- !Z.mul_assoc. f_equal.
    rewrite <- !Z.pow_add_r by lia. f_equal. lia. }
  assert (Hbound : 2 * Z.abs (1000 * Z.pos mz - d * E) <= 1000).
  { rewrite Hsplit in Hb.
    replace (Z.pos mz * 2 ^ t * 8796093022208000 - d * E * (2 ^ t * 2 ^ 43))
      with ((2 ^ t * 2 ^ 43) * (1000 * Z.pos mz - d * E)) in Hb
      by (change 8796093022208000 with (1000 * 2 ^ 43); ring).
    assert (HP : 0 < 2 ^ t * 2 ^ 43)
      by (apply Z.mul_pos_pos; apply Z.pow_pos_nonneg; lia).
    rewrite Z.abs_mul, (Z.abs_eq (2 ^ t * 2 ^ 43)) in Hb by lia.
    change 8796093022208000 with (1000 * 2 ^ 43) in Hb.
    nia. }
  split; [|split; [lia|exact Hbound]].
  (* the exponent: -8 would put the quotient above 2^44 *)
  destruct (Z.leb_spec (a - 53 - -43 - 53 + t) (-9)) as [|Hgt]; [assumption|].
  exfalso.
  assert (a = 53 /\ t = 2) as [-> ->] by lia.
  unfold E in Hbound. simpl in Hbound. lia.
Qed.

(** The tenths [toFixed(1)] prints for such a quotient are nearest to the
    exact quotient. *)
Lemma nearest_tenth (d : Z) (m : positive) (e : Z) :
  1000 <= d -> e <= -9 ->
  2 * Z.abs (1000 * Z.pos m - d * 2 ^ (- e)) <= 1000 ->
  Z.abs (100 * nearest_scaled m e 1 - d) <= 50.
Proof.
  intros Hd He Hb. unfold nearest_scaled.
  destruct (Z.leb_spec 0 e); [lia|].
  change (10 ^ Z.of_N 1) with 10.
  replace (- e + 1) with (Z.succ (- e)) by lia.
  rewrite Z.pow_succ_r by lia.
  set (E := 2 ^ (- e)) in *.
  assert (HE : 512 <= E).
  { unfold E. change 512 with (2 ^ 9). apply Z.pow_le_mono_r; lia. }
  set (k := (2 * (Z.pos m * 10) + E) / (2 * E)).
  assert (Hk : 2 * E * k <= 2 * (Z.pos m * 10) + E < 2 * E * k + 2 * E).
  { unfold k. pose proof (Z.div_mod (2 * (Z.pos m * 10) + E) (2 * E)).
    pose proof (Z.mod_pos_bound (2 * (Z.pos m * 10) + E) (2 * E)). lia. }
  nia.
Qed.

End NumberFacts.

(* ================================================================== *)
(** * Facts about traces *)
(* ================================================================== *)

Module ApiFacts.
Import Js Api.

Lemma bracketedb_sound {U} (raises lowers touches : U -> bool)
  (tr : list (Event U)) :
  bracketedb raises lowers touches tr = true ->
  bracketed raises lowers touches tr.
Proof.
  unfold bracketedb, bracketed.
  destruct tr as [|[up| |] rest]; try discriminate.
  intros H; apply andb_true_iff in H as [Hup H].
  destruct (rev rest) as [|[down| |] dim] eqn:E; try discriminate.
  apply andb_true_iff in H as [Hdown Hmid].
  exists up, down, (rev dim). repeat split; auto.
  - f_equal. rewrite <- (rev_involutive rest), E. reflexivity.
  - apply Forall_forall. intros ev Hin. apply in_rev in Hin.
    rewrite forallb_forall in Hmid. specialize (Hmid ev Hin).
    destruct ev; auto. apply negb_true_iff; exact Hmid.
Qed.

End ApiFacts.

(* ================================================================== *)
(** * Properties of the update-channel component *)
(* ================================================================== *)

Module UpdateChannelProps.
Import Js Api UpdateChannel JsFacts.

(** The state after [loadCurrentConfig] when the backend answers [u]. *)
Lemma load_resolved (srv : Server) (u : option jsstring) (s0 : State) :
  srv _ [] UpdateChannel_GET = Resolved u ->
  final (exec srv loadCurrentConfig s0) =
    if negb (truthy_opt u) || opt_eqb u (lit "") then
      apply (setConfig {| channel := stable; config_customUrl := None |}) s0
    else if opt_eqb u (lit "local") then
      apply (setConfig {| channel := local; config_customUrl := None |}) s0
    else if opt_eqb u dev_url then
      apply (setConfig {| channel := dev; config_customUrl := None |}) s0
    else
      match u with
      | Some v =>
          apply (setCustomUrl v)
            (apply (setConfig {| channel := custom;
                                 config_customUrl := Some v |}) s0)
      | None => s0
      end.
Proof.
  intros H. unfold exec, loadCurrentConfig, final. cbn -[lit dev_url opt_eqb truthy_opt].
  rewrite H. cbn -[lit dev_url opt_eqb truthy_opt].
  destruct (negb (truthy_opt u) || opt_eqb u (lit "")); [reflexivity|].
  destruct (opt_eqb u (lit "local")); [reflexivity|].
  destruct (opt_eqb u dev_url); [reflexivity|].
  destruct u; reflexivity.
Qed.

(** C1. For each of the channels stable, dev and local, the URL
    [getUpdateUrl] gives for a configuration with that channel is mapped
    back to the same channel by [loadCurrentConfig]; and each of the three
    sentinel URLs (the empty string, "local", the archive of the main
    branch), once mapped to a channel by [loadCurrentConfig], is given back
    unchanged by [getUpdateUrl]. *)
Theorem channel_url_round_trip :
  (forall (srv : Server) (s s0 : State),
      channel (config s) <> custom ->
      srv _ [] UpdateChannel_GET = Resolved (Some (getUpdateUrl s)) ->
      channel (config (final (exec srv loadCurrentConfig s0)))
      = channel (config s))
  /\
  (forall (srv : Server) (u : jsstring) (s0 : State),
      In u [lit ""; lit "local"; dev_url] ->
      srv _ [] UpdateChannel_GET = Resolved (Some u) ->
      getUpdateUrl (final (exec srv loadCurrentConfig s0)) = u).
Proof.
  split.
  - intros srv s s0 Hc H. rewrite (load_resolved _ _ H).
    unfold getUpdateUrl.
    destruct (channel (config s)); try reflexivity. congruence.
  - intros srv u s0 Hu H. rewrite (load_resolved _ _ H).
    simpl in Hu.
    destruct Hu as [<- | [<- | [<- | []]]]; reflexivity.
Qed.

Lemma channel_url_round_trip_witness :
  channel (config (final (exec (storing (Some (getUpdateUrl
     {| loading := false; error := None;
        config := {| channel := dev; config_customUrl := None |};
        customUrl := lit "https://example.org/x.zip" |}))) loadCurrentConfig initial)))
  = dev
  /\ getUpdateUrl (final (exec (storing (Some (lit "local")))
                            loadCurrentConfig initial)) = lit "local".
Proof.
  split.
  - apply (proj1 channel_url_round_trip
             (storing (Some dev_url))
             {| loading := false; error := None;
                config := {| channel := dev; config_customUrl := None |};
                customUrl := lit "https://example.org/x.zip" |} initial).
    + simpl; discriminate.
    + reflexivity.
  - apply (proj2 channel_url_round_trip (storing (Some (lit "local")))
             (lit "local") initial).
    + simpl; right; left; reflexivity.
    + reflexivity.
Defined.

(** A stored URL of [null] shows as the stable channel and the default
    text. *)
Example null_url_is_stable :
  let s := final (exec (storing None) loadCurrentConfig initial) in
  channel (config s) = stable
  /\ currentUrlText s = lit "Default (no value)".
Proof. split; reflexivity. Qed.

(** C6. A non-empty URL that is none of the sentinels is mapped to the
    channel custom, with that very string both in the configuration and in
    the custom-URL field, and [getUpdateUrl] gives the same string back. *)
Theorem custom_url_carried_through
  (srv : Server) (u : jsstring) (s0 : State) :
  u <> lit "" -> u <> lit "local" -> u <> dev_url ->
  srv _ [] UpdateChannel_GET = Resolved (Some u) ->
  let s := final (exec srv loadCurrentConfig s0) in
  config s = {| channel := custom; config_customUrl := Some u |}
  /\ customUrl s = u
  /\ getUpdateUrl s = u.
Proof.
  intros H0 H1 H2 H. cbv zeta. rewrite (load_resolved _ _ H).
  unfold opt_eqb.
  rewrite (str_eqb_neq H0), (str_eqb_neq H1), (str_eqb_neq H2).
  destruct u as [|c u]; [contradiction H0; reflexivity|].
  repeat split.
Qed.

Lemma custom_url_carried_through_witness :
  let s := final (exec (storing (Some (lit "https://mycustom/repo.zip")))
                    loadCurrentConfig initial) in
  config s = {| channel := custom;
                config_customUrl := Some (lit "https://mycustom/repo.zip") |}
  /\ customUrl s = lit "https://mycustom/repo.zip"
  /\ getUpdateUrl s = lit "https://mycustom/repo.zip".
Proof.
  apply (@custom_url_carried_through
           (storing (Some (lit "https://mycustom/repo.zip")))
           (lit "https://mycustom/repo.zip") initial);
    [discriminate | discriminate | discriminate | reflexivity].
Defined.

(** The cases of a run: every answer of the backend it meets. *)
Ltac backend_cases srv :=
  repeat match goal with
         | |- context [srv ?T ?h ?ep] =>
             let E := fresh "E" in
             destruct (srv T h ep) eqn:E;
             cbn -[lit dev_url trim or_default getUpdateUrl]
         end.

(** C4. Saving with the channel custom and a custom URL that is empty or
    made of white space only is refused before any request: the validation
    message becomes the error, no request is made, the rest of the state is
    left as it was and the function returns. *)
Theorem save_custom_blank_url_rejected (srv : Server) (s : State) :
  channel (config s) = custom ->
  forallb isWhiteSpace (customUrl s) = true ->
  let r := exec srv (handleSaveChannel s) s in
  requests (trace r) = []
  /\ error (final r)
     = Some (lit "Custom URL is required when using custom channel")
  /\ loading (final r) = false
  /\ config (final r) = config s
  /\ customUrl (final r) = customUrl s
  /\ result r = inr tt.
Proof.
  intros Hc Hw. apply trim_blank in Hw.
  unfold exec, handleSaveChannel. rewrite Hc, Hw.
  cbn -[lit]. repeat split.
Qed.

Lemma save_custom_blank_url_rejected_witness :
  let s := {| loading := false; error := None;
              config := {| channel := custom;
                           config_customUrl := Some [32; 160; 9]%N |};
              customUrl := [32; 160; 9]%N |} in
  let r := exec (storing None) (handleSaveChannel s) s in
  requests (trace r) = []
  /\ error (final r)
     = Some (lit "Custom URL is required when using custom channel")
  /\ loading (final r) = false
  /\ config (final r) = config s
  /\ customUrl (final r) = customUrl s
  /\ result r = inr tt.
Proof.
  intros s.
  apply (@save_custom_blank_url_rejected (storing None) s);
    [reflexivity | reflexivity].
Defined.

(** C5. Saving with the channel dev posts the archive URL of the main
    branch to /api/admin/update-channel as [updateUrl]; when that request
    succeeds, a POST to /api/admin/self-check-run follows in the same call,
    and when it fails nothing else is requested. *)
Theorem save_dev_posts_url_then_runs_check (srv : Server) (s : State) :
  channel (config s) = dev ->
  let r := exec srv (handleSaveChannel s) s in
  let save :=
    {| req_path := lit "/api/admin/update-channel"; req_method := POST;
       req_updateUrl :=
         Some (lit "https://github.com/Yundera/template-root/archive/refs/heads/main.zip") |} in
  let check :=
    {| req_path := lit "/api/admin/self-check-run"; req_method := POST;
       req_updateUrl := None |} in
  match srv _ [] (UpdateChannel_POST dev_url) with
  | Resolved _ => requests (trace r) = [save; check]
  | Rejected _ => requests (trace r) = [save]
  end.
Proof.
  intros Hc. unfold exec, handleSaveChannel, getUpdateUrl. rewrite Hc.
  cbn -[lit dev_url trim or_default].
  destruct (srv unit [] (UpdateChannel_POST dev_url)) eqn:E;
    cbn -[lit dev_url trim or_default].
  - backend_cases srv; reflexivity.
  - reflexivity.
Qed.

Lemma save_dev_posts_url_then_runs_check_witness :
  let s := {| loading := false; error := None;
              config := {| channel := dev; config_customUrl := None |};
              customUrl := [] |} in
  requests (trace (exec (storing None) (handleSaveChannel s) s))
  = [ {| req_path := lit "/api/admin/update-channel"; req_method := POST;
         req_updateUrl := Some dev_url |};
      {| req_path := lit "/api/admin/self-check-run"; req_method := POST;
         req_updateUrl := None |} ].
Proof.
  intros s.
  exact (@save_dev_posts_url_then_runs_check (storing None) s eq_refl).
Defined.

(** The save action raises [loading] first, lowers it last, leaves it alone
    in between, ends with it lowered and returns, whatever the backend
    answers and whatever the state. *)
Lemma save_brackets_loading (srv : Server) (s : State) :
  let r := exec srv (handleSaveChannel s) s in
  bracketed raises lowers touches (trace r)
  /\ loading (final r) = false
  /\ result r = inr tt.
Proof.
  unfold exec, handleSaveChannel.
  cbn -[lit dev_url trim or_default getUpdateUrl].
  destruct (is_custom (channel (config s))
            && negb (truthy (trim (customUrl s))));
    cbn -[lit dev_url trim or_default getUpdateUrl];
    backend_cases srv;
    (split; [apply ApiFacts.bracketedb_sound; reflexivity | split; reflexivity]).
Qed.

End UpdateChannelProps.

(* ================================================================== *)
(** * Properties of the self-check component *)
(* ================================================================== *)

Module SelfCheckProps.
Import Js SelfCheckTypes Api SelfCheck PresenterSpec JsFacts.

Ltac answers srv :=
  repeat match goal with
         | |- context [srv ?T ?h ?ep] =>
             let E := fresh "E" in
             destruct (srv T h ep) eqn:E; cbn -[lit or_default]
         end.

(** C3. Running the self-check: when the POST to /api/admin/self-check-run
    succeeds, the status is fetched exactly once afterwards, and a failure
    of that fetch becomes the error of the component (non-null, non-empty);
    when the POST fails, no fetch follows and the failure of the POST
    becomes the error. *)
Theorem run_self_check_refetches_once (srv : Server) (s : State) :
  let r := exec srv handleRunSelfCheck s in
  let run_req :=
    {| req_path := lit "/api/admin/self-check-run"; req_method := POST;
       req_updateUrl := None |} in
  let fetch_req :=
    {| req_path := lit "/api/admin/self-check-status"; req_method := GET;
       req_updateUrl := None |} in
  match srv _ [] SelfCheckRun_POST with
  | Resolved _ =>
      requests (trace r) = [run_req; fetch_req]
      /\ match srv _ [run_req] SelfCheckStatus_GET with
         | Resolved st =>
             status (final r) = Some st /\ error (final r) = None
         | Rejected e =>
             error (final r)
             = Some (or_default (Api.message e)
                       (lit "Failed to get self-check status"))
             /\ truthy_opt (error (final r)) = true
             /\ status (final r) = status s
         end
  | Rejected e =>
      requests (trace r) = [run_req]
      /\ error (final r)
         = Some (or_default (Api.message e) (lit "Self-check failed"))
      /\ truthy_opt (error (final r)) = true
      /\ status (final r) = status s
  end.
Proof.
  unfold exec, handleRunSelfCheck, checkStatus. cbn -[lit or_default].
  destruct (srv unit [] SelfCheckRun_POST) as [[]|e] eqn:E;
    cbn -[lit or_default].
  - split; [answers srv; reflexivity|].
    match goal with
    | |- context [srv ?T ?h ?ep] => destruct (srv T h ep) as [st|e] eqn:E'
    end; cbn -[lit or_default].
    + split; reflexivity.
    + repeat split. apply or_default_truthy; reflexivity.
  - repeat split. apply or_default_truthy; reflexivity.
Qed.

(** The two failures, on example backends. *)
Example run_then_failed_fetch :
  let r := exec (failing_status {| Api.message := Some (lit "HTTP 502") |})
             handleRunSelfCheck initial in
  List.length (requests (trace r)) = 2%nat
  /\ error (final r) = Some (lit "HTTP 502")
  /\ loading (final r) = false /\ checking (final r) = false.
Proof. repeat split. Qed.

Example run_rejected :
  let r := exec (unreachable {| Api.message := None |})
             handleRunSelfCheck initial in
  List.length (requests (trace r)) = 1%nat
  /\ error (final r) = Some (lit "Self-check failed")
  /\ loading (final r) = false.
Proof. repeat split. Qed.

(** The run action raises [loading] first, lowers it last, leaves it alone
    in between, ends with it lowered and returns, whatever the backend
    answers and whatever the state. *)
Lemma run_brackets_loading (srv : Server) (s : State) :
  let r := exec srv handleRunSelfCheck s in
  bracketed raises lowers touches (trace r)
  /\ loading (final r) = false
  /\ result r = inr tt.
Proof.
  unfold exec, handleRunSelfCheck, checkStatus. cbn -[lit or_default].
  answers srv;
    (split; [apply ApiFacts.bracketedb_sound; reflexivity | split; reflexivity]).
Qed.

(** The word on the chip and its colour, for each overall status. *)
Lemma rendered_chip (s : State) :
  statusChip (render s)
  = option_map (fun r => chip_of (overallStatus r)) (status s).
Proof.
  unfold render; simpl. destruct (status s) as [r|]; [|reflexivity].
  simpl. destruct (overallStatus r); reflexivity.
Qed.

Lemma chip_of_inj (o o' : OverallStatus) : chip_of o = chip_of o' -> o = o'.
Proof. destruct o, o'; simpl; intros H; try reflexivity; discriminate H. Qed.

(** C7 as stated fails: the card at [failed_poll_while_running] displays
    error, running and the status chip at once, where the reading by
    precedence allows error alone. *)
Lemma presenter_states_overlap : ~ exclusive_at failed_poll_while_running.
Proof.
  intros H. specialize (H running). destruct H as [H _].
  assert (D : displays (render failed_poll_while_running) running)
    by reflexivity.
  specialize (H D). discriminate H.
Qed.

(** C7, amended. The card is a function of the state whose parts are
    decided independently of each other, not by precedence: the error alert
    is shown exactly when a non-empty error is present; the chip of the
    overall status (success, failure, partial or never run) exactly when a
    snapshot is present, running or not; the running indicator exactly when
    a snapshot is present with isRunning true; none of the three exactly
    when the snapshot is absent and there is no error to show.  The state
    the precedence names is among the displayed ones whenever the error is
    absent or non-empty. *)
Theorem presenter_shows_parts_independently (s : State) :
  let v := render s in
  (displays v error_shown <-> truthy_opt (error s) = true)
  /\ (displays v running
      <-> exists r, status s = Some r /\ isRunning r = true)
  /\ (forall o, displays v (settled o)
                <-> exists r, status s = Some r /\ overallStatus r = o)
  /\ (displays v no_data
      <-> status s = None /\ truthy_opt (error s) = false)
  /\ (error s <> Some [] ->
      displays v (present (status s) (loading s || checking s) (error s))).
Proof.
  cbv zeta. split; [|split; [|split; [|split]]].
  - simpl. destruct (error s) as [[|c e]|]; simpl; split; congruence.
  - simpl. destruct (status s) as [r|]; simpl; split.
    + eauto.
    + intros (r' & H & H'); inversion H; subst; exact H'.
    + discriminate.
    + intros (r' & H & _); discriminate H.
  - intros o. unfold displays. rewrite rendered_chip.
    destruct (status s) as [r|]; simpl; split.
    + intros H; exists r; split; [reflexivity|].
      apply chip_of_inj; congruence.
    + intros (r' & H & <-); inversion H; reflexivity.
    + discriminate.
    + intros (r' & H & _); discriminate H.
  - unfold displays. rewrite rendered_chip. simpl.
    destruct (status s) as [r|]; destruct (error s) as [[|c e]|]; simpl;
      split; try (intros (H1 & H2 & H3)); try (intros (H1 & H2));
      try discriminate; try congruence; repeat split.
  - intros He. destruct (error s) as [[|c e]|] eqn:E.
    + contradiction He; reflexivity.
    + simpl. rewrite E. simpl. discriminate.
    + destruct (status s) as [r|] eqn:Es; simpl present.
      * destruct (isRunning r) eqn:Er.
        -- simpl. rewrite Es. exact Er.
        -- unfold displays. rewrite rendered_chip, Es. reflexivity.
      * simpl. rewrite E, Es. repeat split.
Qed.

Lemma presenter_shows_parts_independently_witness :
  displays (render failed_poll_while_running) error_shown
  /\ displays (render failed_poll_while_running) running
  /\ displays (render failed_poll_while_running) (settled Success).
Proof.
  pose proof (presenter_shows_parts_independently failed_poll_while_running)
    as (_ & Hrun & Hchip & _ & Hshown).
  split; [|split].
  - apply Hshown. discriminate.
  - apply Hrun. exists running_snapshot. split; reflexivity.
  - apply Hchip. exists running_snapshot. split; reflexivity.
Defined.

Lemma rendered_rows (s : State) (r : SelfCheckStatus) :
  status s = Some r -> scripts r <> [] ->
  scriptRows (render s) = Some (map renderRow (scripts r)).
Proof.
  intros Hs Hne. unfold render; simpl. rewrite Hs.
  destruct (scripts r); [contradiction | reflexivity].
Qed.

(** C8. The rows of a snapshot that has scripts are its scripts in order,
    and a row shows pass exactly when its script's [success] is true; the
    rows are the same whatever the overall status of the snapshot, whose
    chip is rendered next to them.  An overall status partial with every
    script passed is rendered like any other combination. *)
Theorem script_rows_follow_success_only (s : State) (r : SelfCheckStatus) :
  status s = Some r -> scripts r <> [] ->
  exists rows,
    scriptRows (render s) = Some rows
    /\ map row_name rows = map fst (scripts r)
    /\ map passes rows = map (fun e => success (snd e)) (scripts r)
    /\ (forall o,
          scriptRows (render (apply (setStatus (with_overallStatus o r)) s))
          = Some rows)
    /\ statusChip (render s) = Some (chip_of (overallStatus r)).
Proof.
  intros Hs Hne. exists (map renderRow (scripts r)).
  split; [apply rendered_rows; assumption|].
  split; [|split; [|split]].
  - rewrite map_map. apply map_ext. intros [n e]; reflexivity.
  - rewrite map_map. apply map_ext. intros [n e]. unfold passes; simpl.
    destruct (success e); reflexivity.
  - intros o. apply (@rendered_rows _ (with_overallStatus o r));
      [reflexivity | exact Hne].
  - rewrite rendered_chip, Hs. reflexivity.
Qed.

Lemma script_rows_follow_success_only_witness :
  exists rows,
    scriptRows (render (apply (setStatus partial_all_passed) initial))
    = Some rows
    /\ map row_name rows = [lit "ensure-docker"; lit "ensure-user"]
    /\ map passes rows = [true; true]
    /\ (forall o,
          scriptRows
            (render (apply (setStatus (with_overallStatus o partial_all_passed))
                       (apply (setStatus partial_all_passed) initial)))
          = Some rows)
    /\ statusChip (render (apply (setStatus partial_all_passed) initial))
       = Some (chip_of Partial).
Proof.
  apply (@script_rows_follow_success_only
           (apply (setStatus partial_all_passed) initial) partial_all_passed);
    [reflexivity | discriminate].
Defined.

End SelfCheckProps.

(* ================================================================== *)
(** * The polling effect *)
(* ================================================================== *)

Module MountedProps.
Import Js SelfCheckTypes Api SelfCheck Mounted PresenterSpec.

Lemma status_fetches_app (a b : list (N * Event Setter)) :
  status_fetches (a ++ b) = status_fetches a ++ status_fetches b.
Proof.
  induction a as [|[t [u|m|r]] a IH]; simpl; auto.
  destruct (str_eqb (req_path r) (lit "/api/admin/self-check-status"));
    simpl; rewrite IH; reflexivity.
Qed.

(** Every run of the effect requests the status at once and arms a new
    interval, which replaces the previous one. *)
Lemma effect_fetches_at_once (i : Instance) :
  status_fetches (log (run_effect i)) = status_fetches (log i) ++ [now i]
  /\ interval (run_effect i) = Some ((now i + delay)%N, status (state i))
  /\ now (run_effect i) = now i.
Proof.
  unfold run_effect, checkStatus. cbn -[lit status_fetches].
  repeat split.
  rewrite <- !app_assoc. rewrite status_fetches_app. reflexivity.
Qed.

(** The effect runs again, hence fetches again at once, at every render
    where [status?.isRunning] is not what it was at its previous run: from
    absent to false or true, and between false and true. *)
Lemma flip_fetches_at_once (i : Instance) :
  mounted i = true ->
  dep_of (state i) <> deps i ->
  status_fetches (log (commit i)) = status_fetches (log i) ++ [now i].
Proof.
  intros Hm Hd. unfold commit. rewrite Hm. simpl.
  destruct (dep_eqb (dep_of (state i)) (deps i)) eqn:E.
  - exfalso. apply Hd.
    destruct (dep_of (state i)) as [[]|], (deps i) as [[]|];
      simpl in E; try discriminate; reflexivity.
  - apply effect_fetches_at_once.
Qed.

Lemma elapse_before_firing (fuel : nat) (target t : N)
  (c : option SelfCheckStatus) (i : Instance) :
  interval i = Some (t, c) -> (target < t)%N ->
  elapse fuel target i = with_now target i.
Proof.
  intros Hi Ht. destruct fuel; simpl; rewrite Hi;
    destruct (N.leb_spec t target); try lia; reflexivity.
Qed.

(** C2, on the code.  Whatever snapshot [r] the backend reports, running or
    not, and whenever the answer to the mount fetch arrives, [d] ms after
    the mount and before the interval has fired: the status is requested a
    second time at that very instant, without any user action, and not
    2000 ms later.  The effect has run again, because [status?.isRunning]
    went from undefined to a boolean; it has made its fetch and armed a new
    interval on the snapshot. *)
Theorem effect_refetches_when_flag_changes (r : SelfCheckStatus) (d : N) :
  (d < delay)%N ->
  let i := simulate (reporting r) [Elapse d; Deliver 0] in
  status_fetches (log i) = [0; d]%N
  /\ status (state i) = Some r
  /\ interval i = Some ((d + delay)%N, Some r).
Proof.
  intros Hd.
  change (simulate (reporting r) [Elapse d; Deliver 0])
    with (step (reporting r) (step (reporting r) mount (Elapse d)) (Deliver 0)).
  assert (E : step (reporting r) mount (Elapse d) = with_now d mount).
  { unfold step. change (now mount) with 0%N. rewrite N.add_0_l.
    apply (@elapse_before_firing _ _ delay None); [reflexivity | exact Hd]. }
  rewrite E. cbv zeta.
  unfold step, mount, run_effect, checkStatus, commit.
  cbn -[lit N.add delay].
  repeat split.
Qed.

Lemma effect_refetches_when_flag_changes_witness :
  let i := simulate (reporting idle_snapshot) [Elapse 300; Deliver 0] in
  status_fetches (log i) = [0; 300]%N
  /\ status (state i) = Some idle_snapshot
  /\ interval i = Some (2300%N, Some idle_snapshot).
Proof.
  exact (@effect_refetches_when_flag_changes idle_snapshot 300 eq_refl).
Defined.

(** Longer runs.  With nothing running the component stays quiet once the
    second answer is in; with a run in progress the fetches that follow the
    immediate one are 2000 ms apart. *)
Example polling_runs :
  status_fetches
    (log (simulate (reporting idle_snapshot)
            [Elapse 300; Deliver 0; Elapse 50; Deliver 0; Elapse 60000]))
  = [0; 300]%N
  /\ status_fetches
       (log (simulate (reporting running_snapshot)
               [Elapse 300; Deliver 0; Elapse 50; Deliver 0; Elapse 4000]))
     = [0; 300; 2300; 4300]%N.
Proof. split; vm_compute; reflexivity. Qed.

End MountedProps.

(* ================================================================== *)
(** * The busy flag of the two actions *)
(* ================================================================== *)

Module ActionProps.
Import Js Api.

(** C9. Each of the two actions, running the self-check and saving the
    channel, raises its [loading] flag before anything else, so before any
    request; lowers it as its last step on every path: success, failure of
    the first request, failure of the follow-up, refusal by the validation;
    and does not touch it in between.  The flag is false when the action
    has returned. *)
Theorem busy_flag_brackets_every_action :
  (forall (srv : Server) (s : SelfCheck.State),
      let r := SelfCheck.exec srv SelfCheck.handleRunSelfCheck s in
      bracketed SelfCheck.raises SelfCheck.lowers SelfCheck.touches (trace r)
      /\ SelfCheck.loading (final r) = false
      /\ result r = inr tt)
  /\
  (forall (srv : Server) (s : UpdateChannel.State),
      let r := UpdateChannel.exec srv (UpdateChannel.handleSaveChannel s) s in
      bracketed UpdateChannel.raises UpdateChannel.lowers
        UpdateChannel.touches (trace r)
      /\ UpdateChannel.loading (final r) = false
      /\ result r = inr tt).
Proof.
  split.
  - exact SelfCheckProps.run_brackets_loading.
  - exact UpdateChannelProps.save_brackets_loading.
Qed.

End ActionProps.

(* ================================================================== *)
(** * The duration of a script *)
(* ================================================================== *)

Module DurationProps.
Import Js SelfCheckTypes SelfCheck PresenterSpec NumberFacts.
Local Open Scope Z_scope.

(** From one second on, [formatDuration] prints tenths of a second: the
    numeral of [k / 10], a point, the digit [k mod 10] and "s", for a [k]
    such that [k / 10] is a one-decimal number nearest to [d / 1000]. *)
Lemma duration_in_seconds (d : Z) :
  1000 <= d <= MAX_SAFE_INTEGER ->
  exists k : N,
    formatDuration (Some d)
    = Some (decimal (k / 10) ++ lit "." ++ decimal (k mod 10) ++ lit "s")
    /\ Z.abs (100 * Z.of_N k - d) <= 50.
Proof.
  intros Hd.
  destruct (@div_by_1000 d Hd) as (m & e & Hq & He & Hm & Hb).
  pose proof (@nearest_tenth d m e ltac:(lia) He Hb) as Hn.
  set (k := nearest_scaled m e 1) in *.
  assert (Hk : 10 <= k) by lia.
  exists (Z.to_N k). split; [|rewrite Z2N.id; lia].
  unfold formatDuration, falsy_number.
  destruct (Z.eqb_spec d 0); [lia|].
  destruct (Z.ltb_spec d 1000); [lia|].
  rewrite Hq. unfold toFixed, ge_1e21.
  destruct (Z.leb_spec 0 e); [lia|].
  assert (G : (10 ^ 21 * 2 ^ (- e) <=? Z.pos m) = false).
  { apply Z.leb_gt.
    assert (0 < 2 ^ (- e)) by (apply Z.pow_pos_nonneg; lia).
    assert (2 ^ 53 < 10 ^ 21) by reflexivity. nia. }
  rewrite G. fold k. cbn [option_map app].
  rewrite (@fixed_numeral_tenths k Hk), <- !app_assoc. reflexivity.
Qed.

(** Below one second, the numeral of the count and "ms". *)
Lemma duration_in_milliseconds (d : Z) :
  d <> 0 -> - MAX_SAFE_INTEGER <= d < 1000 ->
  formatDuration (Some d)
  = Some ((if d <? 0 then lit "-" else []) ++ decimal (Z.abs_N d)
          ++ lit "ms").
Proof.
  intros H0 Hd. unfold formatDuration, falsy_number.
  destruct (Z.eqb_spec d 0); [contradiction|].
  destruct (Z.ltb_spec d 1000); [|lia].
  unfold Number_toString, isSafeInteger.
  assert (S : (Z.abs d <=? MAX_SAFE_INTEGER) = true)
    by (apply Z.leb_le; unfold MAX_SAFE_INTEGER in *; lia).
  rewrite S. cbn [option_map]. rewrite <- app_assoc. reflexivity.
Qed.

(** A script row carries a duration chip exactly when its duration is
    present and not zero; [formatDuration] gives the empty string for an
    absent duration and for 0 ms.  The label of the chip is
    [formatDuration] of the duration: for a count [d] below 1000 the
    numeral of [d] followed by "ms"; from 1000 on, [d / 1000] rounded to
    one decimal followed by "s". *)
Theorem duration_chip_and_format :
  formatDuration None = Some (lit "")
  /\ formatDuration (Some 0) = Some (lit "")
  /\ (forall (name : jsstring) (res : SelfCheckResult),
        has_chip (renderRow (name, res)) = true
        <-> exists d, duration res = Some d /\ d <> 0)
  /\ (forall (name : jsstring) (res : SelfCheckResult) (d : Z),
        duration res = Some d -> d <> 0 ->
        row_duration (renderRow (name, res))
        = DurationChip (formatDuration (Some d)))
  /\ (forall d : Z,
        d <> 0 -> - MAX_SAFE_INTEGER <= d < 1000 ->
        formatDuration (Some d)
        = Some ((if d <? 0 then lit "-" else []) ++ decimal (Z.abs_N d)
                ++ lit "ms"))
  /\ (forall d : Z,
        1000 <= d <= MAX_SAFE_INTEGER ->
        exists k : N,
          formatDuration (Some d)
          = Some (decimal (k / 10) ++ lit "." ++ decimal (k mod 10)
                  ++ lit "s")
          /\ Z.abs (100 * Z.of_N k - d) <= 50).
Proof.
  split; [reflexivity|]. split; [reflexivity|].
  split; [|split; [|split]].
  - intros name res. unfold has_chip, renderRow, falsy_number.
    destruct (duration res) as [d|]; simpl.
    + destruct (Z.eqb_spec d 0) as [->|Hd]; simpl; split.
      * discriminate.
      * intros (d & E & Hd). inversion E; subst. contradiction.
      * intros _. exists d. auto.
      * reflexivity.
    + split; [discriminate|]. intros (d & E & _). discriminate E.
  - intros name res d E Hd. unfold renderRow, falsy_number. rewrite E.
    destruct (Z.eqb_spec d 0); [contradiction|reflexivity].
  - exact duration_in_milliseconds.
  - exact duration_in_seconds.
Qed.

Lemma duration_chip_and_format_witness :
  formatDuration (Some 250) = Some (lit "250ms")
  /\ (exists k : N,
        formatDuration (Some 1250)
        = Some (decimal (k / 10) ++ lit "." ++ decimal (k mod 10) ++ lit "s")
        /\ Z.abs (100 * Z.of_N k - 1250) <= 50)
  /\ has_chip (renderRow (lit "ensure-docker",
                          {| success := true; message := lit "ok";
                             duration := Some 1250 |})) = true.
Proof.
  destruct duration_chip_and_format as (_ & _ & Hchip & _ & Hms & Hs).
  split; [|split].
  - apply (Hms 250); [discriminate | unfold MAX_SAFE_INTEGER; lia].
  - apply (Hs 1250). unfold MAX_SAFE_INTEGER; lia.
  - apply Hchip. exists 1250. split; [reflexivity | discriminate].
Defined.

(** C10. A duration of 0 ms is not rendered like an absent one.
    [formatDuration] treats the two alike, both give the empty string, but
    the row never calls it for 0: the guard [result.duration && <Chip/>]
    evaluates to the number 0 itself, which React prints, where an absent
    duration leaves nothing.  The place of the chip is empty exactly for an
    absent duration, and holds the text 0 exactly for a duration of 0, so
    the two rows differ. *)
Theorem zero_duration_is_printed (name : jsstring) (res : SelfCheckResult) :
  (row_duration (renderRow (name, res)) = NoDuration <-> duration res = None)
  /\ (forall d : Z,
        row_duration (renderRow (name, res)) = NumberText d
        <-> d = 0 /\ duration res = Some 0)
  /\ (duration res = Some 0 ->
      formatDuration (duration res) = formatDuration None
      /\ renderRow (name, res)
         <> renderRow (name, {| success := success res;
                                message := SelfCheckTypes.message res;
                                duration := None |})).
Proof.
  unfold renderRow, falsy_number.
  destruct (duration res) as [d|] eqn:E; cbn [row_duration].
  - destruct (Z.eqb_spec d 0) as [->|Hd].
    + split; [split; discriminate|]. split.
      * intros d. split.
        -- intros [= <-]. split; reflexivity.
        -- intros (-> & _). reflexivity.
      * intros _. split; [reflexivity|]. cbn [duration]. discriminate.
    + split; [split; discriminate|]. split.
      * intros d'. split; [discriminate|].
        intros (_ & [= H]). contradiction.
      * intros [= H]. contradiction.
  - split; [split; reflexivity|]. split.
    + intros d. split; [discriminate|]. intros (_ & H). discriminate H.
    + discriminate.
Qed.

Lemma zero_duration_is_printed_witness :
  let res := {| success := true; message := lit "ok"; duration := Some 0 |} in
  row_duration (renderRow (lit "ensure-docker", res)) = NumberText 0
  /\ row_duration (renderRow (lit "ensure-docker", res)) <> NoDuration
  /\ formatDuration (duration res) = formatDuration None.
Proof.
  intros res.
  destruct (zero_duration_is_printed (lit "ensure-docker") res)
    as (Habsent & Hzero & Hfmt).
  split; [|split].
  - apply Hzero. split; reflexivity.
  - intros H. apply Habsent in H. discriminate H.
  - apply Hfmt. reflexivity.
Defined.

(** Durations as the component prints them. *)
Example durations_printed :
  map formatDuration
    [Some 0; Some 5; Some 999; Some 1000; Some 1049; Some 1050; Some 1150;
     Some 1250; Some 1500; Some 59999; Some 123456789]
  = map (fun s => Some (lit s))
      [""; "5ms"; "999ms"; "1.0s"; "1.0s"; "1.1s"; "1.1s"; "1.3s"; "1.5s";
       "60.0s"; "123456.8s"]%string.
Proof. vm_compute. reflexivity. Qed.

End DurationProps.

(* ================================================================== *)
(** * More on the update-channel component *)
(* ================================================================== *)

Module UpdateChannelMore.
Import Js Api UpdateChannel UpdateChannelView JsFacts UpdateChannelProps.

(** Whatever URL the backend holds, the URL of the loaded state is that
    URL, [null] read as the empty string: mapping a URL to a channel and
    back loses nothing, for the sentinels, for every other string and for
    an absent value alike. *)
Theorem loaded_url_is_stored_url
  (srv : Server) (u : option jsstring) (s0 : State) :
  srv _ [] UpdateChannel_GET = Resolved u ->
  getUpdateUrl (final (exec srv loadCurrentConfig s0))
  = match u with Some v => v | None => lit "" end.
Proof.
  intros H. rewrite (load_resolved _ _ H).
  destruct u as [v|]; [|reflexivity].
  unfold opt_eqb, truthy_opt.
  destruct v as [|c v]; [reflexivity|].
  cbn [truthy negb orb].
  destruct (str_eqb (c :: v) (lit "")) eqn:E0.
  { apply str_eqb_eq in E0. discriminate E0. }
  destruct (str_eqb (c :: v) (lit "local")) eqn:E1.
  { apply str_eqb_eq in E1. rewrite E1. reflexivity. }
  destruct (str_eqb (c :: v) dev_url) eqn:E2.
  { apply str_eqb_eq in E2. rewrite E2. reflexivity. }
  reflexivity.
Qed.

Lemma loaded_url_is_stored_url_witness :
  getUpdateUrl (final (exec (storing (Some (lit "local")))
                         loadCurrentConfig initial)) = lit "local".
Proof.
  exact (@loaded_url_is_stored_url (storing (Some (lit "local")))
           (Some (lit "local")) initial eq_refl).
Defined.

(** The run of [handleSaveChannel] on a state the validation lets through,
    by the answers of the backend. *)
Lemma save_cases (srv : Server) (s : State) :
  saveable s = true ->
  let r := exec srv (handleSaveChannel s) s in
  let u := getUpdateUrl s in
  match srv _ [] (UpdateChannel_POST u) with
  | Rejected e =>
      requests (trace r) = [save_request u]
      /\ notifications (trace r) = []
      /\ final r
         = apply (setLoading false)
             (apply (setError (Some (or_default (message e)
                                       (lit "Failed to save update channel"))))
                (apply (setError None) (apply (setLoading true) s)))
  | Resolved _ =>
      match srv _ [save_request u] SelfCheckRun_POST with
      | Rejected e =>
          requests (trace r) = [save_request u; check_request]
          /\ notifications (trace r)
             = [lit "Update channel saved successfully. Running self-check..."]
          /\ final r
             = apply (setLoading false)
                 (apply (setError (Some (or_default (message e)
                                   (lit "Failed to save update channel"))))
                    (apply (setError None) (apply (setLoading true) s)))
      | Resolved _ =>
          requests (trace r) = [save_request u; check_request]
          /\ notifications (trace r)
             = [lit "Update channel saved successfully. Running self-check...";
                lit "Self-check completed successfully"]
          /\ final r
             = apply (setLoading false)
                 (apply (setError None) (apply (setLoading true) s))
      end
  end.
Proof.
  intros Hv. unfold saveable in Hv. apply negb_true_iff in Hv.
  unfold exec, handleSaveChannel. rewrite Hv.
  cbn -[lit dev_url trim or_default getUpdateUrl apply].
  destruct (srv unit [] (UpdateChannel_POST (getUpdateUrl s))) as [[]|e];
    cbn -[lit dev_url trim or_default getUpdateUrl apply].
  - change {| req_path := lit "/api/admin/update-channel"; req_method := POST;
              req_updateUrl := Some (getUpdateUrl s) |}
      with (save_request (getUpdateUrl s)).
    destruct (srv unit [save_request (getUpdateUrl s)] SelfCheckRun_POST)
      as [[]|e]; cbn -[lit dev_url trim or_default getUpdateUrl apply];
      repeat split.
  - repeat split.
Qed.

(** A state that passes the validation is saved under the URL the card
    shows as current: the first request posts [getUpdateUrl], which for the
    channel custom is the text of the field as typed, white space around it
    included (the validation trims, the request does not). *)
Theorem save_posts_url_as_typed (srv : Server) (s : State) :
  saveable s = true ->
  exists rest,
    requests (trace (exec srv (handleSaveChannel s) s))
    = save_request (getUpdateUrl s) :: rest
    /\ (channel (config s) = custom -> getUpdateUrl s = customUrl s).
Proof.
  intros Hv. pose proof (@save_cases srv s Hv) as H. cbv zeta in H.
  destruct (srv unit [] (UpdateChannel_POST (getUpdateUrl s))).
  - destruct (srv unit [save_request (getUpdateUrl s)] SelfCheckRun_POST);
      destruct H as (-> & _); eexists; (split; [reflexivity|]);
      unfold getUpdateUrl; intros ->; reflexivity.
  - destruct H as (-> & _). eexists. split; [reflexivity|].
    unfold getUpdateUrl; intros ->; reflexivity.
Qed.

Lemma save_posts_url_as_typed_witness :
  let s := {| loading := false; error := None;
              config := {| channel := custom;
                           config_customUrl := Some (lit " https://x/r.zip ") |};
              customUrl := lit " https://x/r.zip " |} in
  exists rest,
    requests (trace (exec (storing None) (handleSaveChannel s) s))
    = save_request (lit " https://x/r.zip ") :: rest
    /\ (channel (config s) = custom -> getUpdateUrl s = customUrl s).
Proof.
  intros s. exact (@save_posts_url_as_typed (storing None) s eq_refl).
Defined.

(** What a save leaves behind, by the answers of the backend.  When the
    POST of the channel is rejected, nothing is notified and the rejection
    becomes the error.  When it succeeds and the self-check run is rejected,
    the first notification has been shown, the channel stays saved, and the
    rejection of the run is reported through the same handler, with the
    fallback text of a failed save.  When both succeed, the two
    notifications are shown in order and no error is left.  In every case
    [loading] is lowered and the configuration and the field are as they
    were. *)
Theorem save_outcomes (srv : Server) (s : State) :
  saveable s = true ->
  let r := exec srv (handleSaveChannel s) s in
  loading (final r) = false
  /\ config (final r) = config s
  /\ customUrl (final r) = customUrl s
  /\ match srv _ [] (UpdateChannel_POST (getUpdateUrl s)) with
     | Rejected e =>
         notifications (trace r) = []
         /\ error (final r)
            = Some (or_default (message e)
                      (lit "Failed to save update channel"))
     | Resolved _ =>
         match srv _ [save_request (getUpdateUrl s)] SelfCheckRun_POST with
         | Rejected e =>
             notifications (trace r)
             = [lit "Update channel saved successfully. Running self-check..."]
             /\ error (final r)
                = Some (or_default (message e)
                          (lit "Failed to save update channel"))
         | Resolved _ =>
             notifications (trace r)
             = [lit "Update channel saved successfully. Running self-check...";
                lit "Self-check completed successfully"]
             /\ error (final r) = None
         end
     end.
Proof.
  intros Hv. pose proof (@save_cases srv s Hv) as H. cbv zeta in H.
  cbv zeta.
  destruct (srv unit [] (UpdateChannel_POST (getUpdateUrl s))).
  - destruct (srv unit [save_request (getUpdateUrl s)] SelfCheckRun_POST);
      destruct H as (_ & -> & ->); repeat split.
  - destruct H as (_ & -> & ->); repeat split.
Qed.

Lemma save_outcomes_witness :
  let s := {| loading := false; error := Some (lit "old");
              config := {| channel := local; config_customUrl := None |};
              customUrl := [] |} in
  let r := exec (unreachable {| message := None |}) (handleSaveChannel s) s in
  loading (final r) = false
  /\ config (final r) = config s
  /\ customUrl (final r) = customUrl s
  /\ notifications (trace r) = []
  /\ error (final r) = Some (lit "Failed to save update channel").
Proof.
  intros s.
  exact (@save_outcomes (unreachable {| message := None |}) s eq_refl).
Defined.

(** Saving and loading again gives the card the URL it had: the URL of
    the reloaded state is the URL that was saved, no error is left and
    [loading] is lowered.  The channel comes back too, except that a custom
    URL spelled like a sentinel ("local", or the archive of the main
    branch) comes back as the channel of that sentinel. *)
Theorem save_then_load_keeps_url (init : option jsstring) (s : State) :
  saveable s = true ->
  let r := save_then_load (persisting init) s in
  getUpdateUrl (final r) = getUpdateUrl s
  /\ error (final r) = None
  /\ loading (final r) = false
  /\ (channel (config s) <> custom ->
      channel (config (final r)) = channel (config s))
  /\ (channel (config s) = custom ->
      (channel (config (final r)) = custom
       <-> customUrl s <> lit "local" /\ customUrl s <> dev_url)).
Proof.
  intros Hv. unfold save_then_load.
  pose proof (@save_cases (persisting init) s Hv) as H. cbv zeta in H.
  cbn [persisting] in H. destruct H as (Hreq & _ & Hfin).
  set (r1 := exec (persisting init) (handleSaveChannel s) s) in *.
  unfold loadCurrentConfig.
  cbn -[lit dev_url opt_eqb truthy_opt apply r1 stored_url].
  rewrite Hreq.
  assert (St : stored_url [save_request (getUpdateUrl s); check_request] init
               = Some (getUpdateUrl s)) by reflexivity.
  rewrite St, Hfin. clear Hreq Hfin St. clearbody r1.
  unfold saveable in Hv. apply negb_true_iff in Hv.
  unfold getUpdateUrl in *.
  destruct s as [l e [c cu] u]. cbn [channel config customUrl] in *.
  destruct c; cbn -[lit dev_url str_eqb] in *.
  - repeat split; try reflexivity; intros; congruence.
  - repeat split; try reflexivity; intros; congruence.
  - repeat split; try reflexivity; intros; congruence.
  - apply negb_false_iff in Hv.
    destruct u as [|a u]; [vm_compute in Hv; discriminate Hv|].
    cbn -[lit dev_url str_eqb].
    destruct (str_eqb (a :: u) (lit "")) eqn:E0.
    { apply str_eqb_eq in E0. discriminate E0. }
    destruct (str_eqb (a :: u) (lit "local")) eqn:E1.
    { apply str_eqb_eq in E1. rewrite E1.
      cbn -[lit dev_url str_eqb].
      repeat split; try congruence; try (intros; congruence);
        intros [? ?]; congruence. }
    destruct (str_eqb (a :: u) dev_url) eqn:E2.
    { apply str_eqb_eq in E2. rewrite E2.
      cbn -[lit dev_url str_eqb].
      repeat split; try congruence; try (intros; congruence);
        intros [? ?]; congruence. }
    cbn -[lit dev_url str_eqb]. repeat split; try congruence.
    + intros E; apply (f_equal (str_eqb (a :: u))) in E.
      rewrite E1 in E. rewrite (proj2 (str_eqb_eq _ _) eq_refl) in E.
      discriminate.
    + intros E; apply (f_equal (str_eqb (a :: u))) in E.
      rewrite E2 in E. rewrite (proj2 (str_eqb_eq _ _) eq_refl) in E.
      discriminate.
Qed.

Lemma save_then_load_keeps_url_witness :
  let s := {| loading := false; error := None;
              config := {| channel := custom;
                           config_customUrl := Some (lit "local") |};
              customUrl := lit "local" |} in
  let r := save_then_load (persisting None) s in
  getUpdateUrl (final r) = lit "local"
  /\ channel (config (final r)) = local.
Proof.
  intros s.
  destruct (@save_then_load_keeps_url None s eq_refl) as (H & _).
  split; [exact H | reflexivity].
Defined.

(** Loading never raises or lowers [loading] and makes exactly one
    request.  When the request is rejected, the rejection (or the fallback
    text) becomes a non-empty error and the channel and the field stay as
    they were; when it succeeds, an error left by an earlier action is not
    cleared. *)
Theorem load_outcomes (srv : Server) (s0 : State) :
  let r := exec srv loadCurrentConfig s0 in
  loading (final r) = loading s0
  /\ requests (trace r) = [load_request]
  /\ result r = inr tt
  /\ match srv _ [] UpdateChannel_GET with
     | Rejected e =>
         config (final r) = config s0
         /\ customUrl (final r) = customUrl s0
         /\ error (final r)
            = Some (or_default (message e)
                      (lit "Failed to load update channel configuration"))
         /\ truthy_opt (error (final r)) = true
     | Resolved _ => error (final r) = error s0
     end.
Proof.
  unfold exec, loadCurrentConfig.
  cbn -[lit dev_url opt_eqb truthy_opt or_default].
  destruct (srv (option jsstring) [] UpdateChannel_GET) as [u|e];
    cbn -[lit dev_url opt_eqb truthy_opt or_default].
  - destruct (negb (truthy_opt u) || opt_eqb u (lit ""));
      [repeat split|].
    destruct (opt_eqb u (lit "local")); [repeat split|].
    destruct (opt_eqb u dev_url); [repeat split|].
    destruct u; repeat split.
  - repeat split. apply or_default_truthy. reflexivity.
Qed.

(** Typing a URL and then moving to another channel and back to custom
    loses nothing: the field, the configuration and the URL to save are the
    typed text, the error is cleared by the change of channel, and none of
    this makes a request. *)
Theorem typed_url_survives_channel_changes
  (srv : Server) (s : State) (url : jsstring) (c : UpdateChannelType) :
  let r := exec srv
             (bind (handleCustomUrlChange url) (fun _ =>
              bind (handleChannelChange c) (fun _ =>
              handleChannelChange custom))) s in
  getUpdateUrl (final r) = url
  /\ customUrl (final r) = url
  /\ config (final r) = {| channel := custom; config_customUrl := Some url |}
  /\ error (final r) = None
  /\ loading (final r) = loading s
  /\ requests (trace r) = [].
Proof. repeat split. Qed.

(** The controls of the card follow [loading]: while it is raised the
    selector and the URL field are disabled and the Save button is replaced
    by the progress line; while it is lowered the button is there and is
    enabled, its own [disabled] flag never being true when it is rendered.
    The URL field is there exactly for the channel custom. *)
Theorem controls_follow_loading (s : State) :
  let v := render s in
  selectDisabled v = loading s
  /\ (saveArea v = SaveButton false <-> loading s = false)
  /\ saveArea v <> SaveButton true
  /\ (saveArea v = Saving (lit "Saving and running self-check...")
      <-> loading s = true)
  /\ match customField v with
     | Some f =>
         channel (config s) = custom
         /\ field_value f = customUrl s /\ field_disabled f = loading s
     | None => channel (config s) <> custom
     end.
Proof.
  unfold render; cbn -[lit]. destruct (loading s) eqn:L.
  - repeat split; try discriminate;
      destruct (channel (config s)); cbn; repeat split; discriminate.
  - repeat split; try discriminate;
      destruct (channel (config s)); cbn; repeat split; discriminate.
Qed.

End UpdateChannelMore.

(* ================================================================== *)
(** * More on the self-check component *)
(* ================================================================== *)

Module SelfCheckMore.
Import Js SelfCheckTypes Api SelfCheck JsFacts.

(** A status fetch makes one request and lowers [checking] at its end,
    without touching [loading].  A successful fetch replaces the snapshot
    and clears the error; a failed one keeps the snapshot it had and sets a
    non-empty error. *)
Theorem checkStatus_outcomes (srv : Server) (s : State) :
  let r := exec srv checkStatus s in
  checking (final r) = false
  /\ loading (final r) = loading s
  /\ List.length (requests (trace r)) = 1%nat
  /\ result r = inr tt
  /\ match srv _ [] SelfCheckStatus_GET with
     | Resolved st => status (final r) = Some st /\ error (final r) = None
     | Rejected e =>
         status (final r) = status s
         /\ error (final r)
            = Some (or_default (Api.message e)
                      (lit "Failed to get self-check status"))
         /\ truthy_opt (error (final r)) = true
     end.
Proof.
  unfold exec, checkStatus. cbn -[lit or_default].
  destruct (srv SelfCheckStatus [] SelfCheckStatus_GET) as [st|e];
    cbn -[lit or_default]; repeat split.
  apply or_default_truthy. reflexivity.
Qed.

(** The notification "Self-check completed successfully" follows the POST
    alone: it is made as soon as the POST resolves, before the status is
    fetched, whatever the snapshot then says and even when the fetch fails;
    it is not made when the POST is rejected. *)
Theorem run_notification_follows_post (srv : Server) (s : State) :
  let r := exec srv handleRunSelfCheck s in
  match srv _ [] SelfCheckRun_POST with
  | Resolved _ =>
      UpdateChannelView.notifications (trace r)
      = [lit "Self-check completed successfully"]
      /\ exists before after,
           trace r
           = before
               ++ EvNotify (lit "Self-check completed successfully")
               :: after
           /\ requests before
              = [ {| req_path := lit "/api/admin/self-check-run";
                     req_method := POST; req_updateUrl := None |} ]
           /\ List.length (requests after) = 1%nat
  | Rejected _ => UpdateChannelView.notifications (trace r) = []
  end.
Proof.
  unfold exec, handleRunSelfCheck, checkStatus. cbn -[lit or_default].
  destruct (srv unit [] SelfCheckRun_POST) as [[]|e]; cbn -[lit or_default];
    [|reflexivity].
  match goal with
  | |- context [srv ?T ?h ?ep] => destruct (srv T h ep) as [st|e]
  end; cbn -[lit or_default].
  - split; [reflexivity|].
    eexists [_; _; _], _. split; [reflexivity|]. split; reflexivity.
  - split; [reflexivity|].
    eexists [_; _; _], _. split; [reflexivity|]. split; reflexivity.
Qed.

(** The colour of the status chip identifies the status: the four known
    statuses have four distinct colours, none of them the grey that every
    other string gets. *)
Theorem chip_colour_identifies_status (o o' : jsstring) :
  (getStatusHexColor o = lit "#bdbdbd"
   <-> o <> lit "success" /\ o <> lit "failure" /\ o <> lit "partial"
       /\ o <> lit "never_run")
  /\ (getStatusHexColor o <> lit "#bdbdbd" ->
      getStatusHexColor o' = getStatusHexColor o -> o' = o).
Proof.
  assert (N : forall a b, str_eqb a b = false -> a <> b).
  { intros a b E F. apply str_eqb_eq in F. congruence. }
  unfold getStatusHexColor.
  destruct (str_eqb o (lit "success")) eqn:E1;
    [apply str_eqb_eq in E1 | apply N in E1];
  (destruct (str_eqb o (lit "failure")) eqn:E2;
    [apply str_eqb_eq in E2 | apply N in E2]);
  (destruct (str_eqb o (lit "partial")) eqn:E3;
    [apply str_eqb_eq in E3 | apply N in E3]);
  (destruct (str_eqb o (lit "never_run")) eqn:E4;
    [apply str_eqb_eq in E4 | apply N in E4]);
  try (exfalso; subst o; discriminate);
  (split; [split; [try (intros H; vm_compute in H; discriminate H);
                   intros _; repeat split; assumption
                  | try (intros (? & ? & ? & ?); congruence); reflexivity]|]);
  intros Hk; try (exfalso; apply Hk; reflexivity);
  destruct (str_eqb o' (lit "success")) eqn:F1;
    try (apply str_eqb_eq in F1);
  try (intros H; vm_compute in H; discriminate H); try congruence;
  destruct (str_eqb o' (lit "failure")) eqn:F2;
    try (apply str_eqb_eq in F2);
  try (intros H; vm_compute in H; discriminate H); try congruence;
  destruct (str_eqb o' (lit "partial")) eqn:F3;
    try (apply str_eqb_eq in F3);
  try (intros H; vm_compute in H; discriminate H); try congruence;
  destruct (str_eqb o' (lit "never_run")) eqn:F4;
    try (apply str_eqb_eq in F4);
  try (intros H; vm_compute in H; discriminate H); congruence.
Qed.

(** The Run Self-Check button is rendered exactly when nothing is in
    progress: not [loading], not [checking] and no run reported by the
    snapshot; when it is rendered it is enabled, its own [disabled] flag
    never being true.  Otherwise the spinner is shown, with "Running..."
    exactly when the snapshot reports a run. *)
Theorem run_button_only_when_idle (s : State) :
  (actionArea (render s) = RunButton false
   <-> loading s = false /\ checking s = false
       /\ status_isRunning (status s) = false)
  /\ actionArea (render s) <> RunButton true
  /\ (actionArea (render s) = Spinner (lit "Running...")
      <-> status_isRunning (status s) = true)
  /\ (actionArea (render s) = Spinner (lit "Loading...")
      <-> status_isRunning (status s) = false
          /\ (loading s = true \/ checking s = true)).
Proof.
  unfold render; cbn -[lit].
  destruct (loading s), (checking s), (status_isRunning (status s));
    cbn -[lit]; repeat split; try discriminate; try tauto;
    try (intros (? & ? & ?); discriminate);
    try (intros (? & [?|?]); discriminate);
    try (intros (? & ?); discriminate).
Qed.

End SelfCheckMore.

(* ================================================================== *)
(** * More on the polling effect and the event loop *)
(* ================================================================== *)

Module MountedMore.
Import Js SelfCheckTypes Api SelfCheck Mounted MountedSpec MountedProps
  PresenterSpec.

(** ** Firings of the interval *)

Lemma commit_in_sync (i : Instance) : in_sync i -> commit i = i.
Proof.
  unfold in_sync, commit. intros ->. rewrite orb_true_r. reflexivity.
Qed.

(** A firing whose callback does nothing moves the clock and the next
    firing, and nothing else. *)
Lemma fire_idle (t : N) (c : option SelfCheckStatus) (i : Instance) :
  status_isRunning c = false -> in_sync i ->
  fire t c i
  = {| now := t; state := state i; deps := deps i;
       interval := Some ((t + delay)%N, c); pending := pending i;
       log := log i; mounted := mounted i |}.
Proof.
  intros Hc Hs. unfold fire. rewrite Hc. cbn [with_now now state deps pending log mounted].
  apply commit_in_sync. exact Hs.
Qed.

Lemma elapse_idle (fuel : nat) (target : N) (i : Instance) :
  timer_idle i -> in_sync i ->
  let j := elapse fuel target i in
  log j = log i /\ pending j = pending i /\ state j = state i
  /\ deps j = deps i /\ mounted j = mounted i /\ timer_idle j.
Proof.
  assert (Stop : forall i, timer_idle i ->
            log (with_now target i) = log i
            /\ pending (with_now target i) = pending i
            /\ state (with_now target i) = state i
            /\ deps (with_now target i) = deps i
            /\ mounted (with_now target i) = mounted i
            /\ timer_idle (with_now target i))
    by (intros i0 H0; repeat split; exact H0).
  revert i. induction fuel as [|fuel IH]; intros i Hi Hs; cbn [elapse]; cbv zeta.
  - destruct (interval i) as [[t c]|]; [destruct (t <=? target)%N|];
      apply Stop; exact Hi.
  - destruct (interval i) as [[t c]|] eqn:E; [|apply Stop; exact Hi].
    destruct (t <=? target)%N; [|apply Stop; exact Hi].
    assert (Hc : status_isRunning c = false)
      by (unfold timer_idle in Hi; rewrite E in Hi; exact Hi).
    rewrite (@fire_idle t c i Hc Hs).
    match goal with |- context [elapse fuel target ?x] => specialize (IH x) end.
    cbv zeta in IH. apply IH; [exact Hc | exact Hs].
Qed.

(** A firing whose callback fetches. *)
Lemma fire_running (t : N) (c : option SelfCheckStatus) (i : Instance) :
  status_isRunning c = true -> in_sync i ->
  let j := fire t c i in
  status_fetches (log j) = status_fetches (log i) ++ [t]
  /\ interval j = Some ((t + delay)%N, c)
  /\ in_sync j
  /\ List.length (pending j) = S (List.length (pending i))
  /\ state j = apply (setError None) (apply (setChecking true) (state i))
  /\ mounted j = mounted i.
Proof.
  intros Hc Hs. unfold fire. rewrite Hc.
  set (j0 := {| now := _; state := _; deps := _; interval := Some ((t + delay)%N, c);
                pending := _; log := _; mounted := _ |}).
  assert (S0 : in_sync j0) by exact Hs.
  rewrite (@commit_in_sync j0 S0). subst j0.
  unfold checkStatus. cbn -[lit status_fetches].
  repeat split; try exact Hs.
  - rewrite <- !app_assoc, status_fetches_app. reflexivity.
  - rewrite length_app. simpl. lia.
Qed.

Lemma due_step (t target : N) :
  (t <= target)%N -> due t target = S (due (t + delay) target).
Proof.
  intros H. unfold due, delay.
  destruct (N.leb_spec t target); [|lia].
  destruct (N.leb_spec (t + 2000) target).
  - f_equal. replace (target - t)%N with ((target - (t + 2000)) + 1 * 2000)%N by lia.
    rewrite N.div_add by discriminate. lia.
  - f_equal. rewrite N.div_small by lia. reflexivity.
Qed.

Lemma elapse_running (fuel : nat) (target t : N)
  (c : option SelfCheckStatus) (i : Instance) :
  interval i = Some (t, c) -> status_isRunning c = true -> in_sync i ->
  (due t target <= fuel)%nat ->
  let j := elapse fuel target i in
  status_fetches (log j) = status_fetches (log i) ++ ticks (due t target) t
  /\ List.length (pending j)
     = (List.length (pending i) + due t target)%nat
  /\ status (state j) = status (state i).
Proof.
  revert t i. induction fuel as [|fuel IH]; intros t i E Hc Hs Hf;
    cbn [elapse]; cbv zeta; rewrite E.
  - destruct (N.leb_spec t target) as [L|L].
    + rewrite (@due_step t target L) in Hf. lia.
    + unfold due. destruct (N.leb_spec t target); [lia|].
      cbn. rewrite app_nil_r, Nat.add_0_r. repeat split.
  - destruct (N.leb_spec t target) as [L|L].
    + rewrite (@due_step t target L) in *.
      destruct (@fire_running t c i Hc Hs) as (F1 & F2 & F3 & F4 & F5 & F6).
      destruct (IH (t + delay)%N (fire t c i) F2 Hc F3 ltac:(lia))
        as (G1 & G2 & G3).
      rewrite G1, G2, G3, F1, F4, F5. cbn [ticks].
      rewrite <- app_assoc. repeat split. lia.
    + unfold due. destruct (N.leb_spec t target); [lia|].
      cbn. rewrite app_nil_r, Nat.add_0_r. repeat split.
Qed.

Lemma run_from_idle (srv : Server) (ds : list N) (i : Instance) :
  timer_idle i -> in_sync i ->
  let j := run_from srv i (map Elapse ds) in
  log j = log i /\ pending j = pending i /\ state j = state i.
Proof.
  revert i. induction ds as [|d ds IH]; intros i Hi Hs; cbn [map run_from fold_left].
  - repeat split.
  - destruct (@elapse_idle (S (N.to_nat (d / delay))) (now i + d)%N i Hi Hs)
      as (E1 & E2 & E3 & E4 & E5 & E6).
    unfold step at 2.
    match goal with |- context [fold_left _ _ ?x] => set (j := x) in * end.
    assert (Sj : in_sync j) by (unfold in_sync; rewrite E3, E4; exact Hs).
    destruct (IH j E6 Sj) as (G1 & G2 & G3). unfold run_from in *.
    cbv zeta. split; [|split]; etransitivity; eassumption.
Qed.

Lemma due_bound (now0 t d : N) :
  (now0 <= t)%N -> (due t (now0 + d) <= S (N.to_nat (d / delay)))%nat.
Proof.
  intros H. unfold due.
  destruct (N.leb_spec t (now0 + d)); [|apply Nat.le_0_l].
  apply le_n_S. apply Nat.compare_le_iff. rewrite <- N2Nat.inj_compare.
  apply N.compare_le_iff. apply N.Div0.div_le_mono. lia.
Qed.

Lemma resume_keeps (p : Prog Setter unit) (i : Instance) :
  interval (resume p i) = interval i
  /\ mounted (resume p i) = mounted i
  /\ deps (resume p i) = deps i
  /\ now (resume p i) = now i.
Proof.
  revert i. induction p as [a|e|u k IH|m k IH|T ep k IH]; intros i; cbn [resume].
  - repeat split.
  - repeat split.
  - destruct (IH (with_state (apply u (state i)) (record (EvSet u) i)))
      as (A & B & C & D). rewrite A, B, C, D. repeat split.
  - destruct (IH (record (EvNotify m) i)) as (A & B & C & D).
    rewrite A, B, C, D. repeat split.
  - repeat split.
Qed.

Lemma step_unmounted (srv : Server) (i : Instance) (inp : Input) :
  interval i = None -> mounted i = false ->
  interval (step srv i inp) = None
  /\ mounted (step srv i inp) = false
  /\ (no_answer inp = true ->
      log (step srv i inp) = log i /\ pending (step srv i inp) = pending i).
Proof.
  intros Hi Hm. destruct inp as [d|n| |]; cbn [step no_answer].
  - cbn [elapse]. rewrite Hi. repeat split; assumption.
  - split; [|split; [|discriminate]].
    + destruct (nth_error (pending i) n) as [[T ep k]|]; [|exact Hi].
      unfold commit.
      destruct (@resume_keeps (k (srv T (logged_requests (log i)) ep))
                  (with_pending (remove_nth n (pending i)) i)) as (A & B & _).
      rewrite B. cbn [with_pending mounted]. rewrite Hm. cbn. rewrite A. exact Hi.
    + destruct (nth_error (pending i) n) as [[T ep k]|]; [|exact Hm].
      unfold commit.
      destruct (@resume_keeps (k (srv T (logged_requests (log i)) ep))
                  (with_pending (remove_nth n (pending i)) i)) as (A & B & _).
      rewrite B. cbn [with_pending mounted]. rewrite Hm. cbn. rewrite B. exact Hm.
  - rewrite Hm. destruct (actionArea (render (state i))) as [|[]];
      repeat split; assumption.
  - repeat split.
Qed.

Lemma run_unmounted (srv : Server) (inputs : list Input) (i : Instance) :
  interval i = None -> mounted i = false ->
  let j := run_from srv i inputs in
  interval j = None /\ mounted j = false
  /\ (forallb no_answer inputs = true ->
      log j = log i /\ pending j = pending i).
Proof.
  revert i. induction inputs as [|inp inputs IH]; intros i Hi Hm;
    cbn [run_from fold_left forallb].
  - repeat split; assumption.
  - destruct (@step_unmounted srv i inp Hi Hm) as (A & B & C).
    destruct (IH (step srv i inp) A B) as (D & E & F).
    unfold run_from in *. cbv zeta. repeat split; try assumption.
    + apply andb_true_iff in H as [H1 H2].
      destruct (C H1) as [C1 _]. destruct (F H2) as [F1 _]. congruence.
    + apply andb_true_iff in H as [H1 H2].
      destruct (C H1) as [_ C2]. destruct (F H2) as [_ F2]. congruence.
Qed.

(** ** The waiting calls and the busy flag *)

Lemma waiting_app_fetch (b : bool) (l : list Pending) (p : Pending) :
  waiting_ok b l -> at_fetch = Some p -> waiting_ok b (l ++ [p]).
Proof.
  intros H Hp. induction H; cbn [app].
  - eapply waiting_fetch; [exact Hp | constructor].
  - eapply waiting_fetch; eassumption.
  - eapply waiting_run_post; eassumption.
  - eapply waiting_run_fetch; eassumption.
Qed.

Lemma waiting_app_run (l : list Pending) (p : Pending) :
  waiting_ok false l -> at_run_post = Some p \/ at_run_fetch = Some p ->
  waiting_ok true (l ++ [p]).
Proof.
  intros H Hp. remember false as b eqn:Eb. induction H; try discriminate; cbn [app].
  - destruct Hp; [eapply waiting_run_post | eapply waiting_run_fetch];
      try eassumption; constructor.
  - eapply waiting_fetch; [eassumption | auto].
Qed.

Lemma waiting_nth (b : bool) (l : list Pending) (n : nat) (p : Pending) :
  waiting_ok b l -> nth_error l n = Some p ->
  (at_fetch = Some p /\ waiting_ok b (remove_nth n l))
  \/ (at_run_post = Some p /\ b = true /\ waiting_ok false (remove_nth n l))
  \/ (at_run_fetch = Some p /\ b = true /\ waiting_ok false (remove_nth n l)).
Proof.
  intros H. revert n. induction H as [|b q l Hq H IH|q l Hq H IH|q l Hq H IH];
    intros [|n] Hn; cbn in Hn; try discriminate.
  - inversion Hn; subst. left. split; assumption.
  - destruct (IH n Hn) as [[A B]|[(A & B & C)|(A & B & C)]]; cbn [remove_nth].
    + left. split; [exact A | eapply waiting_fetch; eassumption].
    + right; left. repeat split; try assumption. eapply waiting_fetch; eassumption.
    + right; right. repeat split; try assumption. eapply waiting_fetch; eassumption.
  - inversion Hn; subst. right; left. repeat split; assumption.
  - destruct (IH n Hn) as [[A B]|[(A & B & C)|(A & B & C)]]; try discriminate.
    left. split; [exact A|]. cbn [remove_nth]. eapply waiting_run_post; eassumption.
  - inversion Hn; subst. right; right. repeat split; assumption.
  - destruct (IH n Hn) as [[A B]|[(A & B & C)|(A & B & C)]]; try discriminate.
    left. split; [exact A|]. cbn [remove_nth]. eapply waiting_run_fetch; eassumption.
Qed.

Lemma waiting_posts (b : bool) (l : list Pending) :
  waiting_ok b l ->
  (List.length (filter is_run_post l) <= (if b then 1 else 0))%nat.
Proof.
  induction 1 as [|b q l Hq H IH|q l Hq H IH|q l Hq H IH]; cbn [filter].
  - cbn. lia.
  - unfold at_fetch in Hq. cbn in Hq. inversion Hq; subst. cbn. exact IH.
  - unfold at_run_post in Hq. cbn in Hq. inversion Hq; subst. cbn in *. lia.
  - unfold at_run_fetch, at_run_post in Hq. cbn in Hq. inversion Hq; subst.
    cbn in *. lia.
Qed.

Lemma inv_checkStatus (i : Instance) : busy_consistent i -> busy_consistent (resume checkStatus i).
Proof.
  unfold busy_consistent. intros H. unfold checkStatus. cbn -[lit].
  apply waiting_app_fetch; [exact H | reflexivity].
Qed.

Lemma inv_commit (i : Instance) : busy_consistent i -> busy_consistent (commit i).
Proof.
  intros H. unfold commit.
  destruct (negb (mounted i) || dep_eqb (dep_of (state i)) (deps i)); [exact H|].
  unfold run_effect. apply inv_checkStatus in H. exact H.
Qed.

Lemma inv_fire (t : N) (c : option SelfCheckStatus) (i : Instance) :
  busy_consistent i -> busy_consistent (fire t c i).
Proof.
  intros H. unfold fire. apply inv_commit.
  destruct (status_isRunning c).
  - apply (@inv_checkStatus (with_now t i)) in H. exact H.
  - exact H.
Qed.

Lemma inv_elapse (fuel : nat) (target : N) (i : Instance) :
  busy_consistent i -> busy_consistent (elapse fuel target i).
Proof.
  revert i. induction fuel as [|fuel IH]; intros i H; cbn [elapse].
  - destruct (interval i) as [[t c]|]; [destruct (t <=? target)%N|]; exact H.
  - destruct (interval i) as [[t c]|]; [destruct (t <=? target)%N|]; try exact H.
    apply IH. apply inv_fire. exact H.
Qed.

Lemma inv_step (srv : Server) (i : Instance) (inp : Input) :
  busy_consistent i -> busy_consistent (step srv i inp).
Proof.
  intros H. destruct inp as [d|n| |]; cbn [step].
  - apply inv_elapse. exact H.
  - destruct (nth_error (pending i) n) as [p|] eqn:E; [|exact H].
    destruct (@waiting_nth _ _ n p H E) as [[A B]|[(A & B & C)|(A & B & C)]].
    + unfold at_fetch in A. cbn in A. inversion A; subst p. clear A.
      destruct (srv SelfCheckStatus (logged_requests (log i)) SelfCheckStatus_GET);
        apply inv_commit; unfold busy_consistent; cbn -[lit or_default]; exact B.
    + unfold at_run_post in A. cbn in A. inversion A; subst p. clear A.
      destruct (srv unit (logged_requests (log i)) SelfCheckRun_POST) as [[]|e];
        apply inv_commit; unfold busy_consistent; cbn -[lit or_default].
      * rewrite B. apply waiting_app_run; [exact C | right; reflexivity].
      * exact C.
    + unfold at_run_fetch, at_run_post in A. cbn in A. inversion A; subst p. clear A.
      destruct (srv SelfCheckStatus (logged_requests (log i)) SelfCheckStatus_GET);
        apply inv_commit; unfold busy_consistent; cbn -[lit or_default]; exact C.
  - destruct (actionArea (render (state i))) as [|[]] eqn:E; try exact H.
    destruct (mounted i); [|exact H].
    apply inv_commit. unfold busy_consistent, handleRunSelfCheck. cbn -[lit or_default].
    assert (L : loading (state i) = false).
    { unfold render in E. cbn in E.
      destruct (loading (state i)); [discriminate E | reflexivity]. }
    unfold busy_consistent in H. rewrite L in H.
    apply waiting_app_run; [exact H | left; reflexivity].
  - exact H.
Qed.

Lemma inv_mount : busy_consistent mount.
Proof.
  unfold busy_consistent. cbn -[lit]. eapply waiting_fetch; [reflexivity | constructor].
Qed.

(** Once the effect has run on a snapshot that reports no run (or on none
    after a failed fetch) and its dependency has not changed since, the
    passing of time fetches nothing: however long the component stays
    mounted, its log, its waiting calls and its state are what they were. *)
Theorem settled_is_quiet (srv : Server) (i : Instance) (ds : list N) :
  timer_idle i -> in_sync i ->
  let j := run_from srv i (map Elapse ds) in
  log j = log i /\ pending j = pending i /\ state j = state i.
Proof. intros Hi Hs. exact (@run_from_idle srv ds i Hi Hs). Qed.

Lemma settled_is_quiet_witness :
  let i := simulate (reporting idle_snapshot)
             [Elapse 300; Deliver 0; Elapse 50; Deliver 0] in
  let j := run_from (reporting idle_snapshot) i
             (map Elapse [1000; 60000; 3600000]%N) in
  log j = log i /\ pending j = pending i /\ state j = state i.
Proof.
  exact (@settled_is_quiet (reporting idle_snapshot)
           (simulate (reporting idle_snapshot)
              [Elapse 300; Deliver 0; Elapse 50; Deliver 0])
           [1000; 60000; 3600000]%N eq_refl eq_refl).
Defined.

(** While the effect has run on a snapshot that reports a run and its
    dependency has not changed since, the status is fetched at every
    firing of the interval, 2000 ms apart from the first firing on, whether
    or not the earlier fetches have been answered: each firing adds one
    waiting call. *)
Theorem interval_fetches_every_delay
  (srv : Server) (i : Instance) (t : N) (c : option SelfCheckStatus) (d : N) :
  interval i = Some (t, c) -> status_isRunning c = true -> in_sync i ->
  (now i <= t)%N ->
  let j := step srv i (Elapse d) in
  let n := due t (now i + d) in
  status_fetches (log j) = status_fetches (log i) ++ ticks n t
  /\ List.length (pending j) = (List.length (pending i) + n)%nat
  /\ status (state j) = status (state i).
Proof.
  intros Hi Hc Hs Hn. cbn [step]. cbv zeta.
  apply (@elapse_running _ _ t c i Hi Hc Hs).
  apply due_bound. exact Hn.
Qed.

Lemma interval_fetches_every_delay_witness :
  let i := simulate (reporting running_snapshot) [Elapse 300; Deliver 0] in
  let j := step (reporting running_snapshot) i (Elapse 4500) in
  status_fetches (log j) = [0; 300; 2300; 4300]%N
  /\ List.length (pending j) = 3%nat
  /\ status (state j) = Some running_snapshot.
Proof.
  exact (@interval_fetches_every_delay (reporting running_snapshot)
           (simulate (reporting running_snapshot) [Elapse 300; Deliver 0])
           2300%N (Some running_snapshot) 4500%N
           eq_refl eq_refl eq_refl ltac:(vm_compute; discriminate)).
Defined.

(** After the unmount the interval is gone for good and the effect never
    runs again: whatever happens next, no interval is armed, and as long as
    no answer arrives for a call still waiting, nothing is requested and
    nothing is logged. *)
Theorem unmounted_stays_quiet
  (srv : Server) (i : Instance) (inputs : list Input) :
  let j := run_from srv (step srv i Unmount) inputs in
  interval j = None
  /\ mounted j = false
  /\ (forallb no_answer inputs = true ->
      log j = log i /\ pending j = pending i).
Proof.
  exact (@run_unmounted srv inputs (step srv i Unmount) eq_refl eq_refl).
Qed.

(** The busy flag does its work: in every run of the mounted component,
    whatever the backend answers and whatever the user and the clock do, at
    most one run of the self-check is waiting for its POST, and none while
    [loading] is lowered; the calls that wait are status fetches and at
    most one run, at its POST or at its follow-up fetch, exactly when
    [loading] is raised. *)
Theorem one_run_at_a_time (srv : Server) (inputs : list Input) :
  let i := simulate srv inputs in
  busy_consistent i
  /\ (List.length (filter is_run_post (pending i)) <= 1)%nat
  /\ (loading (state i) = false -> filter is_run_post (pending i) = []).
Proof.
  assert (H : forall i, busy_consistent i ->
                        busy_consistent (fold_left (step srv) inputs i)).
  { induction inputs as [|inp inputs IH]; intros i Hi; cbn [fold_left].
    - exact Hi.
    - apply IH. apply inv_step. exact Hi. }
  specialize (H mount inv_mount). unfold simulate. cbv zeta.
  set (i := fold_left (step srv) inputs mount) in *.
  split; [exact H|]. pose proof (waiting_posts H) as P. split.
  - destruct (loading (state i)); lia.
  - intros L. rewrite L in P.
    destruct (filter is_run_post (pending i)); [reflexivity|].
    cbn in P. lia.
Qed.

(** Two clicks in a row, and clicks while the first run waits: one POST. *)
Example second_click_is_ignored :
  let i := simulate (reporting idle_snapshot)
             [Elapse 300; Deliver 0; Elapse 50; Deliver 0;
              Click; Click; Elapse 10; Click] in
  List.length (filter is_run_post (pending i)) = 1%nat
  /\ loading (state i) = true.
Proof. split; vm_compute; reflexivity. Qed.

End MountedMore.

(* ================================================================== *)
(** * The software-status card *)
(* ================================================================== *)

Module DockerUpdateProps.
Import Js JsFacts DockerUpdate.

(** A fetch of the image statuses makes one request and lowers [checking]
    at its end.  When it succeeds the answer replaces the status, the time
    of the answer becomes the time last checked and no error is left; when
    it fails, the status and the time last checked stay what they were and
    the rejection, or the fallback text, becomes a non-empty error. *)
Theorem getLastStatus_outcomes
  (srv : Async.Server Call Api.Err) (clock : N) (s : State) :
  let r := Async.exec apply srv (getLastStatus clock) s in
  checking (Async.final r) = false
  /\ Async.asked (Async.trace r) = 1%nat
  /\ Async.result r = inr tt
  /\ match srv _ 0%nat DockerComposeStatus_GET with
     | Async.Resolved u =>
         updateStatus (Async.final r) = Some u
         /\ lastChecked (Async.final r) = Some clock
         /\ error (Async.final r) = None
     | Async.Rejected e =>
         updateStatus (Async.final r) = updateStatus s
         /\ lastChecked (Async.final r) = lastChecked s
         /\ error (Async.final r)
            = Some (or_default (Api.message e)
                      (lit "Failed to check for updates"))
         /\ truthy_opt (error (Async.final r)) = true
     end.
Proof.
  unfold Async.exec, getLastStatus. cbn -[lit or_default].
  destruct (srv LastUpdateStatus 0%nat DockerComposeStatus_GET) as [u|e];
    cbn -[lit or_default]; repeat split.
  apply or_default_truthy. reflexivity.
Qed.

(** The text of a digest is never longer than 19 code units: a digest
    other than the not-found marker is cut to its first 16 code units and
    followed by three dots, a shorter one being shown whole; the marker is
    replaced by its sentence. *)
Theorem digest_text_is_short (d : jsstring) :
  (List.length (currentText d) <= 19)%nat
  /\ (List.length (availableText d) <= 19)%nat
  /\ (d <> lit "local-not-found" ->
      currentText d = firstn 16 d ++ lit "..."
      /\ ((List.length d <= 16)%nat -> currentText d = d ++ lit "..."))
  /\ (d <> lit "remote-not-found" ->
      availableText d = firstn 16 d ++ lit "..."
      /\ ((List.length d <= 16)%nat -> availableText d = d ++ lit "...")).
Proof.
  assert (L : (List.length (firstn 16 d ++ lit "...") <= 19)%nat).
  { rewrite length_app, length_firstn.
    change (List.length (lit "...")) with 3%nat. lia. }
  unfold currentText, availableText, substring0.
  split; [|split; [|split]].
  - destruct (str_eqb d (lit "local-not-found")); [cbn; lia | exact L].
  - destruct (str_eqb d (lit "remote-not-found")); [cbn; lia | exact L].
  - intros H. rewrite (str_eqb_neq H). split; [reflexivity|].
    intros Hl. rewrite firstn_all2 by exact Hl. reflexivity.
  - intros H. rewrite (str_eqb_neq H). split; [reflexivity|].
    intros Hl. rewrite firstn_all2 by exact Hl. reflexivity.
Qed.

Lemma digest_text_is_short_witness :
  currentText (lit "sha256:0123456789abcdef0123") = lit "sha256:012345678..."
  /\ availableText (lit "abc") = lit "abc...".
Proof.
  destruct (digest_text_is_short (lit "sha256:0123456789abcdef0123"))
    as (_ & _ & H1 & _).
  destruct (digest_text_is_short (lit "abc")) as (_ & _ & _ & H2).
  split.
  - apply H1. discriminate.
  - apply H2; [discriminate | cbn; lia].
Defined.

(** Once a status is loaded, the card shows either one row per image, in
    order, or the notice that no image was found, never both and never
    neither; before that it shows none of them and no status line. *)
Theorem rows_or_empty_notice (s : State) :
  match updateStatus s with
  | None =>
      header (render s) = None /\ rows (render s) = None
      /\ emptyNotice (render s) = false
  | Some u =>
      header (render s) <> None
      /\ match rows (render s) with
         | Some l =>
             emptyNotice (render s) = false
             /\ l <> [] /\ map row_image l = map image (images u)
         | None => emptyNotice (render s) = true /\ images u = []
         end
  end.
Proof.
  unfold render; cbn. destruct (updateStatus s) as [u|]; [|repeat split].
  split; [discriminate|].
  destruct (images u) as [|i l]; cbn; repeat split; try discriminate.
  rewrite map_map. reflexivity.
Qed.

(** The status chip and the summary line follow the flag [hasUpdates] of
    the answer, not its images: the line "k of n image(s) have updates
    available" is shown exactly when the flag is set, with [k] the number
    of images whose own flag is set, at most [n], possibly zero. *)
Theorem summary_follows_flag (s : State) (u : LastUpdateStatus) :
  updateStatus s = Some u ->
  exists h,
    header (render s) = Some h
    /\ chip_label (overall h)
       = (if hasUpdates u then lit "UPDATES AVAILABLE" else lit "UP TO DATE")
    /\ match summary h with
       | Some (k, n) =>
           hasUpdates u = true
           /\ n = List.length (images u)
           /\ k = List.length (filter hasUpdate (images u))
           /\ (k <= n)%nat
       | None => hasUpdates u = false
       end.
Proof.
  intros H. unfold render; cbn. rewrite H. eexists. split; [reflexivity|].
  cbn. split; [reflexivity|].
  destruct (hasUpdates u); [|reflexivity].
  repeat split. apply filter_length_le.
Qed.

Lemma summary_follows_flag_witness :
  let u := {| timestamp := 0; totalImages := 1; hasUpdates := true;
              status_error := None;
              images := [ {| image := lit "nginx"; currentDigest := lit "a";
                             availableDigest := lit "a"; hasUpdate := false;
                             status := lit "up-to-date";
                             image_error := None |} ] |} in
  exists h,
    header (render (apply (setUpdateStatus u) initial)) = Some h
    /\ chip_label (overall h) = lit "UPDATES AVAILABLE"
    /\ summary h = Some (0%nat, 1%nat).
Proof.
  intros u.
  destruct (@summary_follows_flag (apply (setUpdateStatus u) initial) u
              eq_refl) as (h & Hh & Hl & Hs).
  exists h. split; [exact Hh|]. split; [exact Hl|].
  cbn in Hh. inversion Hh; subst h. reflexivity.
Defined.

(** What a row shows follows the status string of its image.  For the
    three known statuses the icon has the colour of the chip; any other
    string gets the grey chip UNKNOWN and the disabled icon.  The error
    line is shown exactly for the status "error" with a non-empty error
    text; in every other case, an error status without text included, the
    two digests are shown. *)
Theorem row_follows_status (i : ImageStatus) :
  let r := renderRow i in
  (match row_icon r with
   | CheckCircleIcon (Some c) =>
       c = chip_color (row_chip r) /\ status i = lit "up-to-date"
   | ErrorIcon c =>
       c = chip_color (row_chip r)
       /\ (status i = lit "update-available" \/ status i = lit "error")
   | CheckCircleIcon None =>
       row_chip r = {| chip_label := lit "UNKNOWN";
                       chip_color := lit "#bdbdbd" |}
       /\ status i <> lit "up-to-date"
       /\ status i <> lit "update-available"
       /\ status i <> lit "error"
   end)
  /\ (match row_detail r with
      | ErrorLine e =>
          status i = lit "error" /\ image_error i = Some e /\ e <> []
      | Digests c a =>
          c = currentText (currentDigest i)
          /\ a = availableText (availableDigest i)
          /\ (status i <> lit "error" \/ truthy_opt (image_error i) = false)
      end).
Proof.
  unfold renderRow, getImageStatusIcon, getImageStatusChip.
  cbn -[lit str_eqb currentText availableText].
  assert (N : forall a b, str_eqb a b = false -> a <> b).
  { intros a b E F. apply str_eqb_eq in F. congruence. }
  split.
  - destruct (str_eqb (status i) (lit "up-to-date")) eqn:E1.
    { apply str_eqb_eq in E1. split; [reflexivity | exact E1]. }
    destruct (str_eqb (status i) (lit "update-available")) eqn:E2.
    { apply str_eqb_eq in E2. split; [reflexivity | left; exact E2]. }
    destruct (str_eqb (status i) (lit "error")) eqn:E3.
    { apply str_eqb_eq in E3. split; [reflexivity | right; exact E3]. }
    repeat split; apply N; assumption.
  - destruct (image_error i) as [e|]; cbn -[lit str_eqb currentText availableText].
    + destruct (str_eqb (status i) (lit "error")) eqn:E3;
        cbn -[lit str_eqb currentText availableText].
      * destruct e as [|c e]; cbn -[lit str_eqb currentText availableText].
        -- repeat split. right; reflexivity.
        -- apply str_eqb_eq in E3. repeat split; [exact E3 | discriminate].
      * repeat split. left. apply N; assumption.
    + repeat split. right; reflexivity.
Qed.

End DockerUpdateProps.

(* ================================================================== *)
(** * The system-configuration card *)
(* ================================================================== *)

Module EnvConfigurationProps.
Import Js JsFacts EnvConfiguration.

(** The card after the fetch of the configuration, by the answer.  An
    answer with status "success" shows the form with the values of the
    answer; any other status shows the error card with the fixed text and
    keeps the values.  A rejection that is not an [Error] shows the fixed
    text; one that is an [Error] shows its message, unless the message is
    empty: the error is then the empty string and the form is shown, with
    the values the component had.  In every case one request is made,
    [loading] ends lowered and the visibility of the password is left
    alone. *)
Theorem fetchConfig_outcomes
  (srv : Async.Server Call Thrown) (s : State) :
  let r := Async.exec apply srv fetchConfig s in
  let s' := Async.final r in
  loading s' = false
  /\ showPassword s' = showPassword s
  /\ Async.asked (Async.trace r) = 1%nat
  /\ Async.result r = inr tt
  /\ match srv _ 0%nat GetEnvironment_GET with
     | Async.Resolved resp =>
         if str_eqb (status resp) (lit "success") then
           config s' = data resp /\ error s' = None
           /\ render s'
              = Form (map (renderField (showPassword s))
                        (configFields (data resp)))
         else
           config s' = config s
           /\ render s' = ErrorCard (lit "Failed to load configuration")
     | Async.Rejected NotError =>
         config s' = config s
         /\ render s' = ErrorCard (lit "Failed to load configuration")
     | Async.Rejected (IsError m) =>
         config s' = config s
         /\ error s' = Some m
         /\ render s'
            = match m with
              | [] => Form (map (renderField (showPassword s))
                              (configFields (config s)))
              | _ :: _ => ErrorCard m
              end
     end.
Proof.
  unfold Async.exec, fetchConfig. cbn -[lit str_eqb configFields renderField].
  destruct (srv Response 0%nat GetEnvironment_GET) as [resp|[m|]];
    cbn -[lit str_eqb configFields renderField].
  - destruct (str_eqb (status resp) (lit "success"));
      cbn -[lit str_eqb configFields renderField]; repeat split.
  - destruct m; repeat split.
  - repeat split.
Qed.

(** The form shows the six values in a fixed order, each as it is.  Only
    the password can be masked, and it is exactly while [showPassword] is
    false; only the password field carries the toggle.  A second press of
    the toggle restores the state. *)
Theorem only_the_password_is_masked (s : State) :
  let fields := map (renderField (showPassword s)) (configFields (config s)) in
  map tf_value fields
  = [DEFAULT_PWD (config s); DOMAIN (config s); PROVIDER_STR (config s);
     UID (config s); DEFAULT_USER (config s); PUBLIC_IP (config s)]
  /\ map tf_type fields
     = [if showPassword s then text else password; text; text; text; text;
        text]
  /\ map tf_toggle fields
     = [Some (if showPassword s then VisibilityOff else Visibility);
        None; None; None; None; None]
  /\ apply toggleShowPassword (apply toggleShowPassword s) = s
  /\ showPassword (apply toggleShowPassword s) = negb (showPassword s).
Proof.
  assert (V : forall v : jsstring, or_default (Some v) (lit "") = v)
    by (intros [|c v]; reflexivity).
  cbv zeta. unfold configFields, renderField. cbn -[lit or_default].
  rewrite !V. destruct s as [sp c l e]. cbn.
  destruct sp; repeat split.
Qed.

End EnvConfigurationProps.

(* ================================================================== *)
(** * The login page *)
(* ================================================================== *)

Module LoginProps.
Import Js JsFacts Login.

(** Submitting raises [loading] and calls [login] once, with the path to
    return to: the [nextPathname] of the location state, or "/" when there
    is no state.  When the call succeeds [loading] is left raised and
    nothing is notified; when it is rejected [loading] is lowered and one
    error notification is made. *)
Theorem handleSubmit_outcomes
  (srv : Async.Server Call LoginError)
  (location_state : option (option jsstring)) (auth : FormValues)
  (loading : bool) :
  let r := Async.exec apply srv (handleSubmit location_state auth) loading in
  Async.asked (Async.trace r) = 1%nat
  /\ Async.result r = inr tt
  /\ match srv _ 0%nat (login auth (next_pathname location_state)) with
     | Async.Resolved _ =>
         Async.final r = true
         /\ Async.did (Async.trace r) = [setLoading true]
     | Async.Rejected e =>
         Async.final r = false
         /\ Async.did (Async.trace r)
            = [setLoading true; setLoading false;
               notify_error (notification_message e) (notification_arg e)]
     end.
Proof.
  unfold Async.exec, handleSubmit.
  cbn -[lit notification_message notification_arg next_pathname].
  destruct (srv unit 0%nat (login auth (next_pathname location_state)))
    as [[]|e]; cbn -[lit notification_message notification_arg];
    repeat split.
Qed.

(** The notification of a failed login.  Its argument, when there is one,
    is the very message shown; there is none exactly when the rejection
    carries no text ([undefined], or an object without a non-empty
    message), and the message is then the translation key of the generic
    sign-in error.  The message is empty only for a rejection that is the
    empty string. *)
Theorem login_notification_text (e : LoginError) :
  match notification_arg e with
  | Some a => notification_message e = a
  | None => notification_message e = lit "ra.auth.sign_in_error"
  end
  /\ (notification_arg e = None
      <-> e = ErrUndefined \/ e = ErrObject None \/ e = ErrObject (Some []))
  /\ (notification_message e = [] <-> e = ErrString []).
Proof.
  destruct e as [s| |[[|c m]|]]; cbn -[lit]; repeat split;
    try discriminate; try tauto;
    try (intros [H|[H|H]]; discriminate H);
    try (intros H; inversion H; reflexivity);
    try (intros H; rewrite H; reflexivity).
Qed.

End LoginProps.

(* ================================================================== *)
(** * The application shell: themes, routes and menu *)
(* ================================================================== *)

Module AppProps.
Import Js JsFacts App.

Section Shell.

Variables ThemeOptions Route ResourceProps : Type.

Variable translate : jsstring -> N -> jsstring.

(** [find] on a list of themes with distinct names returns the theme of
    that name. *)
Lemma currentTheme_named (themeList : list (Theme ThemeOptions)) (t : Theme ThemeOptions) :
  NoDup (map (@theme_name _) themeList) -> In t themeList ->
  currentTheme themeList (theme_name t) = Some t.
Proof.
  unfold currentTheme.
  induction themeList as [|a l IH]; intros Hd Hin; [destruct Hin|].
  cbn [find]. inversion Hd as [|x xs Hx Hd']; subst.
  destruct (str_eqb (theme_name a) (theme_name t)) eqn:E.
  - destruct Hin as [->|Hin]; [reflexivity|].
    apply str_eqb_eq in E. exfalso. apply Hx. rewrite E.
    apply in_map. exact Hin.
  - destruct Hin as [->|Hin].
    + rewrite (proj2 (str_eqb_eq _ _) eq_refl) in E. discriminate E.
    + apply IH; assumption.
Qed.

Lemma currentTheme_unknown (themeList : list (Theme ThemeOptions)) (themeName : jsstring) :
  ~ In themeName (map (@theme_name _) themeList) ->
  currentTheme themeList themeName = None.
Proof.
  unfold currentTheme.
  induction themeList as [|a l IH]; intros Hn; [reflexivity|].
  cbn [find]. destruct (str_eqb (theme_name a) themeName) eqn:E.
  - apply str_eqb_eq in E. exfalso. apply Hn. left. exact E.
  - apply IH. intros Hin. apply Hn. right. exact Hin.
Qed.

Lemma currentTheme_listed (themeList : list (Theme ThemeOptions)) (themeName : jsstring)
    (t : Theme ThemeOptions) :
  currentTheme themeList themeName = Some t ->
  In t themeList /\ theme_name t = themeName.
Proof.
  unfold currentTheme. intros H. apply find_some in H.
  destruct H as (Hin & E). apply str_eqb_eq in E. split; assumption.
Qed.

(** The loops that push the routes one by one build the concatenation of
    the route lists, on top of what was collected before. *)
Lemma fold_push (A : Type) (l acc : list A) : fold_left push l acc = acc ++ l.
Proof.
  revert acc. induction l as [|x l IH]; intros acc; cbn [fold_left].
  - symmetry. apply app_nil_r.
  - rewrite IH. unfold push. rewrite <- app_assoc. reflexivity.
Qed.

Lemma collect_routes (panels : list (PanelInterface Route ResourceProps)) (acc : list Route) :
  fold_left
    (fun acc panel =>
       match route panel with
       | Some r => fold_left push (routes r) acc
       | None => acc
       end)
    panels acc
  = acc ++ flat_map (fun p => match route p with
                              | Some r => routes r
                              | None => []
                              end) panels.
Proof.
  revert acc. induction panels as [|p l IH]; intros acc; cbn [fold_left flat_map].
  - symmetry. apply app_nil_r.
  - rewrite IH. destruct (route p) as [r|].
    + rewrite fold_push, <- app_assoc. reflexivity.
    + reflexivity.
Qed.

Lemma prefixed_distinct (pre : jsstring) (l : list jsstring) :
  NoDup (map (fun s => pre ++ s) l) <-> NoDup l.
Proof.
  induction l as [|a l IH]; cbn [map].
  - split; intros _; constructor.
  - split; intros H; inversion H as [|x xs Hx Hd]; subst; constructor.
    + intros Hin. apply Hx. apply (in_map (fun s => pre ++ s)) in Hin.
      exact Hin.
    + apply IH. exact Hd.
    + intros Hin. apply in_map_iff in Hin. destruct Hin as (b & E & Hin).
      apply app_inv_head in E. subst b. apply Hx. exact Hin.
    + apply IH. exact Hd.
Qed.

Lemma panel_links_menu (panels : list (PanelInterface Route ResourceProps)) (d : bool)
    (tail : list MenuEntry) :
  panel_links (map (fun value => PanelLink (MenuItem translate value d)) panels
               ++ tail)
  = map (fun value => MenuItem translate value d) panels ++ panel_links tail.
Proof.
  induction panels as [|p l IH]; [reflexivity|].
  cbn [map]. rewrite <- app_comm_cons. cbn [panel_links]. rewrite IH.
  reflexivity.
Qed.

(** With distinct theme names, the theme named in the store is the one
    used, each variant on its own: a variant the named theme has is taken
    from it, a variant it lacks is taken from the first theme of the list.
    The light and the dark variant can so come from two different
    themes. *)
Theorem named_theme_is_used (themeList : list (Theme ThemeOptions)) (t : Theme ThemeOptions) :
  NoDup (map (@theme_name _) themeList) -> In t themeList ->
  lightTheme themeList (theme_name t)
  = match light t with
    | Some o => Some o
    | None => match themeList with
              | first :: _ => light first
              | [] => None
              end
    end
  /\ darkTheme themeList (theme_name t)
     = match dark t with
       | Some o => Some o
       | None => match themeList with
                 | first :: _ => dark first
                 | [] => None
                 end
       end.
Proof.
  intros Hd Hin. unfold lightTheme, darkTheme.
  rewrite (@currentTheme_named themeList t Hd Hin).
  destruct themeList as [|first l]; [destruct Hin|].
  cbn [nth_error]. split.
  - destruct (light t); reflexivity.
  - destruct (dark t); reflexivity.
Qed.

(** The variants handed to the framework are variants of themes of the
    list, of the theme named in the store or of the first one; with a name
    that no theme of the list has (the default name included), both are
    those of the first theme, and with an empty list there is none. *)
Theorem theme_comes_from_the_list
  (themeList : list (Theme ThemeOptions)) (themeName : jsstring) :
  (forall o, lightTheme themeList themeName = Some o ->
     exists t, In t themeList /\ light t = Some o
               /\ (theme_name t = themeName \/ nth_error themeList 0 = Some t))
  /\ (forall o, darkTheme themeList themeName = Some o ->
        exists t, In t themeList /\ dark t = Some o
                  /\ (theme_name t = themeName
                      \/ nth_error themeList 0 = Some t))
  /\ (~ In themeName (map (@theme_name _) themeList) ->
      lightTheme themeList themeName
      = match themeList with first :: _ => light first | [] => None end
      /\ darkTheme themeList themeName
         = match themeList with first :: _ => dark first | [] => None end).
Proof.
  assert (F : forall t, nth_error themeList 0 = Some t -> In t themeList).
  { intros t H. destruct themeList as [|a l]; [discriminate H|].
    injection H as ->. left. reflexivity. }
  unfold lightTheme, darkTheme. split; [|split].
  - intros o.
    destruct (currentTheme themeList themeName) as [t|] eqn:C.
    + destruct (@currentTheme_listed _ _ _ C) as (Hin & En).
      destruct (light t) as [o'|] eqn:L.
      * intros [= <-]. exists t. auto.
      * destruct (nth_error themeList 0) as [t0|] eqn:E0; [|discriminate].
        intros H. exists t0. auto.
    + destruct (nth_error themeList 0) as [t0|] eqn:E0; [|discriminate].
      intros H. exists t0. auto.
  - intros o.
    destruct (currentTheme themeList themeName) as [t|] eqn:C.
    + destruct (@currentTheme_listed _ _ _ C) as (Hin & En).
      destruct (dark t) as [o'|] eqn:L.
      * intros [= <-]. exists t. auto.
      * destruct (nth_error themeList 0) as [t0|] eqn:E0; [|discriminate].
        intros H. exists t0. auto.
    + destruct (nth_error themeList 0) as [t0|] eqn:E0; [|discriminate].
      intros H. exists t0. auto.
  - intros Hn. rewrite (@currentTheme_unknown _ _ Hn).
    destruct themeList; split; reflexivity.
Qed.

(** The routes handed to the framework are the routes of the panels, in
    the order of the panels and, within a panel, of its own list; a panel
    without [route] gives none.  Collecting is additive over the list of
    panels. *)
Theorem panelsRoutes_in_panel_order
  (themeList : list (Theme ThemeOptions)) (themeName : jsstring)
  (panels more : list (PanelInterface Route ResourceProps)) :
  panelsRoutes panels
  = flat_map (fun p => match route p with
                       | Some r => routes r
                       | None => []
                       end) panels
  /\ panelsRoutes (panels ++ more) = panelsRoutes panels ++ panelsRoutes more
  /\ (forall r, In r (panelsRoutes panels)
                <-> exists p rt, In p panels /\ route p = Some rt
                                 /\ In r (routes rt))
  /\ admin_customRoutes (app themeList panels themeName)
     = panelsRoutes panels.
Proof.
  assert (E : forall ps : list (PanelInterface Route ResourceProps),
             panelsRoutes ps
             = flat_map (fun p => match route p with
                                  | Some r => routes r
                                  | None => []
                                  end) ps).
  { intros ps. unfold panelsRoutes. rewrite collect_routes. reflexivity. }
  split; [apply E|]. split; [|split].
  - rewrite !E. apply flat_map_app.
  - intros r. rewrite E, in_flat_map. split.
    + intros (p & Hin & Hr). destruct (route p) as [rt|] eqn:R; [|destruct Hr].
      exists p, rt. auto.
    + intros (p & rt & Hin & R & Hr). exists p. rewrite R. auto.
  - cbn [app admin_customRoutes]. apply map_id.
Qed.

(** The sidebar has one link per panel, in the order of the panels,
    between the dashboard link and the three fixed entries.  The React
    keys of the links and their paths are pairwise distinct exactly when
    the names of the panels are. *)
Theorem menu_keys_distinct_iff_names_distinct
  (panels : list (PanelInterface Route ResourceProps)) (dense : option bool) :
  let links := panel_links (Menu translate panels dense) in
  map (@link_key) links = map (@name _ _) panels
  /\ map (@link_to) links = map (fun p => lit "/" ++ name p) panels
  /\ (NoDup (map (@link_key) links) <-> NoDup (map (@name _ _) panels))
  /\ (NoDup (map (@link_to) links) <-> NoDup (map (@name _ _) panels))
  /\ List.length (Menu translate panels dense)
     = (List.length panels + 4)%nat.
Proof.
  cbv zeta. unfold Menu. cbn [panel_links].
  rewrite panel_links_menu. cbn [panel_links]. rewrite app_nil_r.
  rewrite !map_map. cbn [MenuItem link_key link_to].
  split; [reflexivity|]. split; [reflexivity|]. split; [reflexivity|].
  split.
  - rewrite <- (map_map (@name _ _) (fun s => lit "/" ++ s)).
    apply prefixed_distinct.
  - cbn [List.length]. rewrite length_app, length_map. cbn [List.length].
    lia.
Qed.

End Shell.

Lemma named_theme_is_used_witness :
  let first := {| theme_name := lit "default";
                  light := Some (lit "default-light");
                  dark := Some (lit "default-dark") |} in
  let soft := {| theme_name := lit "soft"; light := None;
                 dark := Some (lit "soft-dark") |} in
  lightTheme [first; soft] (lit "soft") = Some (lit "default-light")
  /\ darkTheme [first; soft] (lit "soft") = Some (lit "soft-dark").
Proof.
  intros first soft.
  assert (Hd : NoDup (map (@theme_name _) [first; soft])).
  { constructor; [|constructor; [intros []|constructor]].
    intros [H|[]]. vm_compute in H. discriminate H. }
  exact (@named_theme_is_used jsstring [first; soft] soft Hd
           (or_intror (or_introl eq_refl))).
Defined.

(** The default name of the store, "soft", with a list that has no such
    theme: the first theme is used. *)
Example default_name_without_soft_theme :
  let first := {| theme_name := lit "default";
                  light := Some (lit "default-light");
                  dark := Some (lit "default-dark") |} in
  lightTheme [first] (lit "soft") = Some (lit "default-light")
  /\ darkTheme [first] (lit "soft") = Some (lit "default-dark").
Proof. split; reflexivity. Qed.

End AppProps.
